(** * RESP codec of archer: a shallow embedding of [parser.go]

    The Go file [parser.go] defines the five reply types of the redis
    protocol, their [Encode] methods and the decoder [ReadProtocol].  This
    development embeds them as Rocq functions:

    - a [[]byte] is a [list byte], a Go [string] is a [string], a Go [int]
      is a [Z] (lengths never come near the 64-bit bound here, and the
      declared lengths that [util.ParseLen] returns are taken unbounded);
    - a run-time panic is an explicit result ([Panics]), never a missing case;
      memory is not modelled: [make] succeeds for every length that is not
      negative, and a pointer to a reply is never nil.  The Go program
      differs where a header declares a length that no slice can have: there
      [l+2] overflows [int] or passes the allocator's limit and [make]
      panics.  A property that depends on a declared length alone states
      its bound ([max_bulk_len]); lengths of data that is there need none;
    - the [*bufio.Reader] is the list of the bytes still to come, together
      with the error its transport reports once they are exhausted;
    - [ReadProtocol] threads the reader through a small state monad. *)

From Stdlib Require Import ZArith NArith List Bool Lia.
From Stdlib Require Import Strings.Byte Strings.Ascii Strings.String.
Import ListNotations.

Local Open Scope Z_scope.
Local Open Scope list_scope.

(** ** Bytes and Go run-time results *)

Definition bytes := list byte.

(** A string literal as a byte slice, [[]byte("...")]. *)
Definition bs (s : string) : bytes := list_byte_of_string s.

(** [len(x)] of a slice, as a Go [int]. *)
Definition len {A : Type} (l : list A) : Z := Z.of_nat (List.length l).

(** Go [error] values that the decoder can hand to its caller. *)
Inductive error : Type :=
| io_EOF
| io_ErrUnexpectedEOF
| errors_New (text : string)
| util_ParseLen_error
| transport_error (text : string).

Inductive panic : Type :=
| panic_value (e : string)
| slice_bounds_out_of_range
| index_out_of_range
| makeslice_len_out_of_range.

(** A Go computation without I/O: it returns or it panics. *)
Inductive exec (A : Type) : Type :=
| Done (a : A)
| Panics (p : panic).
Arguments Done {A} a.
Arguments Panics {A} p.

Definition exec_bind {A B : Type} (c : exec A) (k : A -> exec B) : exec B :=
  match c with
  | Done a => k a
  | Panics p => Panics p
  end.

Declare Scope exec_scope.
Delimit Scope exec_scope with exec.
Notation "x <- c ;; k" := (exec_bind c (fun x => k))
  (at level 61, c at next level, right associativity) : exec_scope.

(** [l[i]]: an index expression panics out of range. *)
Definition index {A : Type} (l : list A) (i : nat) : exec A :=
  match nth_error l i with
  | Some a => Done a
  | None => Panics index_out_of_range
  end.

(** [l[lo:hi]]: a slice expression panics unless [0 <= lo <= hi <= len(l)]. *)
Definition slice {A : Type} (l : list A) (lo hi : Z) : exec (list A) :=
  if (0 <=? lo) && (lo <=? hi) && (hi <=? len l)
  then Done (firstn (Z.to_nat (hi - lo)) (skipn (Z.to_nat lo) l))
  else Panics slice_bounds_out_of_range.

(** ** Package-level variables *)

Definition SimpleType : string := "simple".
Definition ErrorType : string := "error".
Definition IntType : string := "int".
Definition BulkType : string := "bulk".
Definition ArrayType : string := "array".

Definition Space : byte := x20.
Definition SimpSep : byte := x2b.
Definition ErrSep : byte := x2d.
Definition IntSep : byte := x3a.
Definition BulkSep : byte := x24.
Definition ArrSep : byte := x2a.
Definition CR : byte := x0d.
Definition LF : byte := x0a.
Definition CRLF : bytes := [CR; LF].

Definition PING : bytes := bs "PING".
Definition QUIT : bytes := bs "QUIT".

(** ** The length codec, package [util] *)

Definition digit (d : N) : byte :=
  match Byte.of_N (48 + d) with
  | Some b => b
  | None => x30
  end.

Definition is_digit (b : byte) : bool :=
  (48 <=? Byte.to_N b)%N && (Byte.to_N b <=? 57)%N.

Fixpoint digits_of (fuel : nat) (n : N) (acc : bytes) : bytes :=
  match fuel with
  | O => acc
  | S fuel' =>
      let acc' := digit (n mod 10) :: acc in
      if (n <? 10)%N then acc' else digits_of fuel' (n / 10) acc'
  end.

(** Modelled from the spec: [util.Itob], which package [util] defines outside
    this file.  "Non-negative integer -> ASCII decimal byte sequence": the
    decimal digits of [n], most significant first, a single [0] for zero.
    The binary size of [n] bounds the number of its decimal digits. *)
Definition Itob (n : N) : bytes :=
  digits_of (S (N.to_nat (N.log2 n))) n [].

Fixpoint parse_digits (n : Z) (p : bytes) : option Z :=
  match p with
  | [] => Some n
  | b :: p' =>
      if is_digit b
      then parse_digits (n * 10 + (Z.of_N (Byte.to_N b) - 48)) p'
      else None
  end.

(** Modelled from the spec: [util.ParseLen], which package [util] defines
    outside this file.  "ASCII decimal byte sequence -> integer, accepting an
    optional leading minus sign only for the literal sentinel value -1,
    failing with a parse error on any other non-digit content."  A body with
    no digit at all is not a decimal and is taken as a parse error.  The
    result is Go's pair [(int, error)]; the integer that comes with an error
    is never looked at. *)
Definition ParseLen (p : bytes) : Z * option error :=
  match p with
  | [] => (0, Some util_ParseLen_error)
  | _ =>
      if list_eq_dec Byte.byte_eq_dec p (bs "-1") then (-1, None)
      else match parse_digits 0 p with
           | Some n => (n, None)
           | None => (0, Some util_ParseLen_error)
           end
  end.

(** ** The reply types *)

Record BaseResp : Type := mkBaseResp {
  Rtype : string;
  Args : list bytes
}.

Record SimpleResp : Type := mkSimpleResp { SimpleResp_base : BaseResp }.
Record ErrorResp : Type := mkErrorResp { ErrorResp_base : BaseResp }.
Record IntResp : Type := mkIntResp { IntResp_base : BaseResp }.

Record BulkResp : Type := mkBulkResp {
  BulkResp_base : BaseResp;
  Empty : bool
}.

(** [ArrayResp] embeds a [BaseResp] too, and shadows its [Args] with a slice
    of bulk replies. *)
Record ArrayResp : Type := mkArrayResp {
  ArrayResp_base : BaseResp;
  ArrayResp_Args : list BulkResp
}.

(** [strings.Join] and [bytes.Join]. *)
Fixpoint strings_Join (l : list string) (sep : string) : string :=
  match l with
  | [] => EmptyString
  | [s] => s
  | s :: t => String.append s (String.append sep (strings_Join t sep))
  end.

Fixpoint bytes_Join (l : list bytes) (sep : bytes) : bytes :=
  match l with
  | [] => []
  | [s] => s
  | s :: t => s ++ sep ++ bytes_Join t sep
  end.

Definition BaseResp_String (br : BaseResp) : string :=
  string_of_list_byte (bytes_Join (Args br) [Space]).

Definition BaseResp_Type (br : BaseResp) : string := Rtype br.

Definition BaseResp_Length (br : BaseResp) : Z := 0.

(** [fmt.Sprintf("%s Encode Type error: %s, expected %s", ...)], the receiver's
    name being written in each format string. *)
Definition type_error (who rtype expected : string) : string :=
  String.append who
    (String.append " Encode Type error: "
       (String.append rtype (String.append ", expected " expected))).

Local Open Scope exec_scope.

Definition SimpleResp_Encode (sr : SimpleResp) : exec bytes :=
  if negb (String.eqb (Rtype (SimpleResp_base sr)) SimpleType)
  then Panics (panic_value
                 (type_error "SimpleResp" (Rtype (SimpleResp_base sr)) SimpleType))
  else
    a0 <- index (Args (SimpleResp_base sr)) 0 ;;
    Done ([SimpSep] ++ a0 ++ CRLF).

Definition ErrorResp_Encode (er : ErrorResp) : exec bytes :=
  if negb (String.eqb (Rtype (ErrorResp_base er)) ErrorType)
  then Panics (panic_value
                 (type_error "ErrorResp" (Rtype (ErrorResp_base er)) ErrorType))
  else
    a0 <- index (Args (ErrorResp_base er)) 0 ;;
    Done ([ErrSep] ++ a0 ++ CRLF).

Definition IntResp_Encode (ir : IntResp) : exec bytes :=
  if negb (String.eqb (Rtype (IntResp_base ir)) IntType)
  then Panics (panic_value
                 (type_error "IntResp" (Rtype (IntResp_base ir)) IntType))
  else
    a0 <- index (Args (IntResp_base ir)) 0 ;;
    Done ([IntSep] ++ a0 ++ CRLF).

Definition BulkResp_Encode (br : BulkResp) : exec bytes :=
  if negb (String.eqb (Rtype (BulkResp_base br)) BulkType)
  then Panics (panic_value
                 (type_error "BulkResp" (Rtype (BulkResp_base br)) BulkType))
  else if Empty br then Done (bs "$-1" ++ CRLF)
  else
    a0 <- index (Args (BulkResp_base br)) 0 ;;
    Done ([BulkSep] ++ Itob (N.of_nat (List.length a0)) ++ CRLF ++ a0 ++ CRLF).

(** The [for _, arg := range ar.Args] loop over the buffer [b]. *)
Fixpoint Encode_args (args : list BulkResp) (b : bytes) : exec bytes :=
  match args with
  | [] => Done b
  | arg :: rest =>
      e <- BulkResp_Encode arg ;;
      Encode_args rest (b ++ e)
  end.

Definition ArrayResp_Encode (ar : ArrayResp) : exec bytes :=
  if negb (String.eqb (Rtype (ArrayResp_base ar)) ArrayType)
  then Panics (panic_value
                 (type_error "ArrayResp" (Rtype (ArrayResp_base ar)) ArrayType))
  else
    Encode_args (ArrayResp_Args ar)
      ([ArrSep] ++ Itob (N.of_nat (List.length (ArrayResp_Args ar))) ++ CRLF).

Definition ArrayResp_String (ar : ArrayResp) : string :=
  strings_Join
    (map (fun i => BaseResp_String (BulkResp_base i)) (ArrayResp_Args ar)) " ".

Definition ArrayResp_Length (ar : ArrayResp) : Z :=
  len (ArrayResp_Args ar) - 1.

(** The interface [Resp]: the four methods every reply type has, the ones of
    [BaseResp] being promoted through the embedding. *)
Class RespMethods (T : Type) : Type := {
  Encode : T -> exec bytes;
  ToString : T -> string;
  TypeOf : T -> string;
  Length : T -> Z
}.

#[export] Instance SimpleResp_Resp : RespMethods SimpleResp := {|
  Encode := SimpleResp_Encode;
  ToString sr := BaseResp_String (SimpleResp_base sr);
  TypeOf sr := BaseResp_Type (SimpleResp_base sr);
  Length sr := BaseResp_Length (SimpleResp_base sr)
|}.

#[export] Instance ErrorResp_Resp : RespMethods ErrorResp := {|
  Encode := ErrorResp_Encode;
  ToString er := BaseResp_String (ErrorResp_base er);
  TypeOf er := BaseResp_Type (ErrorResp_base er);
  Length er := BaseResp_Length (ErrorResp_base er)
|}.

#[export] Instance IntResp_Resp : RespMethods IntResp := {|
  Encode := IntResp_Encode;
  ToString ir := BaseResp_String (IntResp_base ir);
  TypeOf ir := BaseResp_Type (IntResp_base ir);
  Length ir := BaseResp_Length (IntResp_base ir)
|}.

#[export] Instance BulkResp_Resp : RespMethods BulkResp := {|
  Encode := BulkResp_Encode;
  ToString br := BaseResp_String (BulkResp_base br);
  TypeOf br := BaseResp_Type (BulkResp_base br);
  Length br := BaseResp_Length (BulkResp_base br)
|}.

#[export] Instance ArrayResp_Resp : RespMethods ArrayResp := {|
  Encode := ArrayResp_Encode;
  ToString := ArrayResp_String;
  TypeOf ar := BaseResp_Type (ArrayResp_base ar);
  Length := ArrayResp_Length
|}.

(** A value of interface type [Resp]: one of the five pointer types. *)
Inductive Resp : Type :=
| RSimple (sr : SimpleResp)
| RError (er : ErrorResp)
| RInt (ir : IntResp)
| RBulk (br : BulkResp)
| RArray (ar : ArrayResp).

#[export] Instance Resp_Resp : RespMethods Resp := {|
  Encode r :=
    match r with
    | RSimple x => Encode x | RError x => Encode x | RInt x => Encode x
    | RBulk x => Encode x | RArray x => Encode x
    end;
  ToString r :=
    match r with
    | RSimple x => ToString x | RError x => ToString x | RInt x => ToString x
    | RBulk x => ToString x | RArray x => ToString x
    end;
  TypeOf r :=
    match r with
    | RSimple x => TypeOf x | RError x => TypeOf x | RInt x => TypeOf x
    | RBulk x => TypeOf x | RArray x => TypeOf x
    end;
  Length r :=
    match r with
    | RSimple x => Length x | RError x => Length x | RInt x => Length x
    | RBulk x => Length x | RArray x => Length x
    end
|}.

Local Close Scope exec_scope.

(** ** The buffered writer *)



(** ** The buffered reader *)

(** A [*bufio.Reader]: the bytes that will still arrive, and the error the
    transport reports after them ([io.EOF] for a closed connection). *)
Record Reader : Type := mkReader {
  pending : bytes;
  failure : error
}.

(** What a call on a reader comes to.  [OutOfFuel] belongs to the bounded
    recursion of the model only; [ReadProtocol_total] shows that the decoder
    never ends there. *)
Inductive outcome (A : Type) : Type :=
| Ret (a : A) (r : Reader)
| Crash (p : panic)
| OutOfFuel.
Arguments Ret {A} a r.
Arguments Crash {A} p.
Arguments OutOfFuel {A}.

Definition M (A : Type) : Type := Reader -> outcome A.

Definition ret {A : Type} (a : A) : M A := fun r => Ret a r.

Definition bind {A B : Type} (c : M A) (k : A -> M B) : M B :=
  fun r =>
    match c r with
    | Ret a r' => k a r'
    | Crash p => Crash p
    | OutOfFuel => OutOfFuel
    end.

Definition lift {A : Type} (c : exec A) : M A :=
  fun r =>
    match c with
    | Done a => Ret a r
    | Panics p => Crash p
    end.

Definition out_of_fuel {A : Type} : M A := fun _ => OutOfFuel.

Declare Scope reader_scope.
Delimit Scope reader_scope with reader.
Notation "x <- c ;; k" := (bind c (fun x => k))
  (at level 61, c at next level, right associativity) : reader_scope.
Notation "' pat <- c ;; k" := (bind c (fun x => match x with pat => k end))
  (at level 61, pat pattern, c at next level, right associativity)
  : reader_scope.

(** The bytes up to and including the first [delim], and what follows. *)
Fixpoint split_delim (delim : byte) (l : bytes) : option (bytes * bytes) :=
  match l with
  | [] => None
  | b :: t =>
      if Byte.eqb b delim then Some ([b], t)
      else match split_delim delim t with
           | Some (line, rest) => Some (b :: line, rest)
           | None => None
           end
  end.

(** [r.ReadBytes(delim)]: the line with its delimiter; when the input ends
    first, what was read and the transport's error. *)
Definition ReadBytes (delim : byte) : M (bytes * option error) :=
  fun r =>
    match split_delim delim (pending r) with
    | Some (line, rest) => Ret (line, None) (mkReader rest (failure r))
    | None => Ret (pending r, Some (failure r)) (mkReader [] (failure r))
    end.

(** [io.ReadFull(r, buf)] for a buffer of [n >= 0] zeroed bytes: the
    buffer's content afterwards, the count read and the error.  Nothing read
    gives the transport's error, a part gives [io.ErrUnexpectedEOF] in place
    of [io.EOF]. *)
Definition ReadFull (n : Z) : M (bytes * Z * option error) :=
  fun r =>
    if n <=? len (pending r)
    then Ret (firstn (Z.to_nat n) (pending r), n, None)
             (mkReader (skipn (Z.to_nat n) (pending r)) (failure r))
    else
      let e := match pending r, failure r with
               | [], e => e
               | _ :: _, io_EOF => io_ErrUnexpectedEOF
               | _ :: _, e => e
               end in
      Ret (pending r ++ repeat x00 (Z.to_nat (n - len (pending r))),
           len (pending r), Some e)
          (mkReader [] (failure r)).

(** ** The decoder *)

Definition must_read_bulk : error :=
  errors_New "In  ReadResp ArrSep, must read BulkResp".

Definition raw_command : error :=
  errors_New "raw command must be quit or ping".

(** [string(b)] for a byte [b]: the UTF-8 encoding of the code point [b],
    one byte below 128 and two from there on. *)
Definition string_of_code_point (b : byte) : string :=
  let n := Byte.to_N b in
  if (n <? 128)%N then string_of_list_byte [b]
  else
    match Byte.of_N (192 + n / 64), Byte.of_N (128 + n mod 64) with
    | Some hi, Some lo => string_of_list_byte [hi; lo]
    | _, _ => EmptyString
    end.

Definition unexpected (res : bytes) (b0 : byte) : error :=
  errors_New
    (String.append "ReadResp error, unexpected: "
       (String.append (string_of_list_byte res) (string_of_code_point b0))).

Definition result : Type := option Resp * option error.

Local Open Scope reader_scope.

(** The loop [for i := 0; i < n; i++] of the array case.  [rd] is the
    recursive call; [k] bounds the iterations, each of which takes at least
    one byte off the reader. *)
Fixpoint read_args (rd : M result) (n : Z) (k : nat) (i : Z)
    (args : list BulkResp) : M result :=
  if i <? n then
    match k with
    | O => out_of_fuel
    | S k' =>
        '(rsp, err) <- rd ;;
        match err with
        | Some e => ret (None, Some e)
        | None =>
            match rsp with
            | Some (RBulk br) => read_args rd n k' (i + 1) (args ++ [br])
            | _ => ret (None, Some must_read_bulk)
            end
        end
    end
  else
    ret (Some (RArray (mkArrayResp (mkBaseResp ArrayType []) args)), None).

(** The body of [ReadProtocol], the recursive call being [self] and [k] the
    bound of the array loop.  [l + 2] is computed without overflow and
    [make] allocates any length that is not negative: the body stands for
    the Go code on declared lengths up to [max_bulk_len] and on lengths of
    data that is there, not on a header that declares more than a slice can
    hold, where the Go code panics in [make]. *)
Definition ReadProtocol_body (self : M result) (k : nat) : M result :=
  '(res, err) <- ReadBytes LF ;;
  match err with
  | Some e => ret (None, Some e)
  | None =>
      b0 <- lift (index res 0) ;;
      if Byte.eqb b0 SimpSep then
        a <- lift (slice res 1 (len res - 2)) ;;
        ret (Some (RSimple (mkSimpleResp (mkBaseResp SimpleType [a]))), None)
      else if Byte.eqb b0 ErrSep then
        a <- lift (slice res 1 (len res - 2)) ;;
        ret (Some (RError (mkErrorResp (mkBaseResp ErrorType [a]))), None)
      else if Byte.eqb b0 IntSep then
        a <- lift (slice res 1 (len res - 2)) ;;
        ret (Some (RInt (mkIntResp (mkBaseResp IntType [a]))), None)
      else if Byte.eqb b0 BulkSep then
        p <- lift (slice res 1 (len res - 2)) ;;
        let '(l, err) := ParseLen p in
        match err with
        | Some e => ret (None, Some e)
        | None =>
            if l =? -1
            then ret (Some (RBulk (mkBulkResp (mkBaseResp BulkType []) true)),
                      None)
            else if l + 2 <? 0 then lift (Panics makeslice_len_out_of_range)
            else
              '(buf, n, e) <- ReadFull (l + 2) ;;
              if (match e with Some _ => true | None => false end)
                 || negb (n =? l + 2)
              then ret (None, err)
              else
                a <- lift (slice buf 0 (len buf - 2)) ;;
                ret (Some (RBulk (mkBulkResp (mkBaseResp BulkType [a])
                                    false)),
                     None)
        end
      else if Byte.eqb b0 ArrSep then
        p <- lift (slice res 1 (len res - 2)) ;;
        let '(n, err) := ParseLen p in
        match err with
        | Some e => ret (None, Some e)
        | None => read_args self n k 0 []
        end
      else if Byte.eqb b0 x51 || Byte.eqb b0 x71 then
        if negb (len res =? 6) then ret (None, Some raw_command)
        else
          ret (Some (RArray
                       (mkArrayResp (mkBaseResp ArrayType [])
                          [mkBulkResp (mkBaseResp BulkType [bs "QUIT"])
                             false])),
               None)
      else if Byte.eqb b0 x70 || Byte.eqb b0 x50 then
        if negb (len res =? 6) then ret (None, Some raw_command)
        else
          ret (Some (RArray
                       (mkArrayResp (mkBaseResp ArrayType [])
                          [mkBulkResp (mkBaseResp BulkType [bs "PING"])
                             false])),
               None)
      else ret (None, Some (unexpected res b0))
  end.

Fixpoint ReadProtocol_fuel (fuel : nat) : M result :=
  match fuel with
  | O => out_of_fuel
  | S fuel' => ReadProtocol_body (ReadProtocol_fuel fuel') fuel'
  end.

(** [ReadProtocol(r)]: every successful read takes a byte, so one unit of
    fuel per pending byte, and one more, is enough. *)
Definition ReadProtocol (r : Reader) : outcome result :=
  ReadProtocol_fuel (S (List.length (pending r))) r.

Local Close Scope reader_scope.

(** * The vocabulary of the properties *)

(** [c] is below [c'] when [c'] returns whatever [c] returns within its
    fuel. *)
Definition below (c c' : M result) : Prop :=
  forall r o, c r = o -> o <> OutOfFuel -> c' r = o.

(** A read never gives bytes back, and takes at least one when it returns
    without an error. *)
Definition consumes (c : M result) : Prop :=
  forall r v e r',
    c r = Ret (v, e) r' ->
    failure r' = failure r /\
    (List.length (pending r') <= List.length (pending r))%nat /\
    (e = None -> (List.length (pending r') < List.length (pending r))%nat).

(** The type assertion of the array loop: the dynamic type of the reply is
    the pointer to a [BulkResp]. *)
Definition is_BulkResp (v : Resp) : bool :=
  match v with
  | RBulk _ => true
  | _ => false
  end.

(** The decoder, called again and again from [r], returns the bulk replies
    [brs] and leaves the reader [r']. *)
Inductive reads_bulks : Reader -> list BulkResp -> Reader -> Prop :=
| reads_nil r : reads_bulks r [] r
| reads_cons r br r1 brs r' :
    ReadProtocol r = Ret (Some (RBulk br), None) r1 ->
    reads_bulks r1 brs r' ->
    reads_bulks r (br :: brs) r'.

(** The wire format of section 6 of the specification.  A line payload is any
    byte sequence without a line feed (the specification also keeps carriage
    returns out of it; the results below do not need that). *)
Inductive bulk_frame : bytes -> Prop :=
| frame_null : bulk_frame (BulkSep :: bs "-1" ++ CRLF)
| frame_bulk content :
    bulk_frame
      (BulkSep :: Itob (N.of_nat (List.length content)) ++ CRLF
         ++ content ++ CRLF).

Inductive frame : bytes -> Prop :=
| frame_Simple text : ~ In LF text -> frame (SimpSep :: text ++ CRLF)
| frame_Error text : ~ In LF text -> frame (ErrSep :: text ++ CRLF)
| frame_Int text : ~ In LF text -> frame (IntSep :: text ++ CRLF)
| frame_Bulk f : bulk_frame f -> frame f
| frame_Array fs :
    Forall bulk_frame fs ->
    frame (ArrSep :: Itob (N.of_nat (List.length fs)) ++ CRLF ++ List.concat fs).

(** The invariants of section 3 of the specification, per variant, with the
    kind tag of the variant. *)
Definition line_invariant (tag : string) (b : BaseResp) : Prop :=
  Rtype b = tag /\ exists text, Args b = [text] /\ ~ In LF text.

Definition bulk_invariant (br : BulkResp) : Prop :=
  Rtype (BulkResp_base br) = BulkType /\
  ((Empty br = true /\ Args (BulkResp_base br) = []) \/
   (Empty br = false /\ exists content, Args (BulkResp_base br) = [content])).

Definition array_invariant (ar : ArrayResp) : Prop :=
  ArrayResp_base ar = mkBaseResp ArrayType [] /\
  Forall bulk_invariant (ArrayResp_Args ar).

Definition invariant (v : Resp) : Prop :=
  match v with
  | RSimple sr => line_invariant SimpleType (SimpleResp_base sr)
  | RError er => line_invariant ErrorType (ErrorResp_base er)
  | RInt ir => line_invariant IntType (IntResp_base ir)
  | RBulk br => bulk_invariant br
  | RArray ar => array_invariant ar
  end.

(** The bulk reply [br] and the frame [f] are each other's image. *)
Definition bulk_codec (br : BulkResp) (f : bytes) : Prop :=
  BulkResp_Encode br = Done f /\
  forall rest fl,
    ReadProtocol (mkReader (f ++ rest) fl) =
    Ret (Some (RBulk br), None) (mkReader rest fl).

(** The reply that an inline command is turned into: an array of one bulk
    reply that holds the command name. *)
Definition inline_reply (name : bytes) : Resp :=
  RArray (mkArrayResp (mkBaseResp ArrayType [])
            [mkBulkResp (mkBaseResp BulkType [name]) false]).

(** The receiver type of the [Encode] method that a reply dispatches to,
    and the kind tag that method expects. *)
Definition receiver (v : Resp) : string :=
  match v with
  | RSimple _ => "SimpleResp"
  | RError _ => "ErrorResp"
  | RInt _ => "IntResp"
  | RBulk _ => "BulkResp"
  | RArray _ => "ArrayResp"
  end.

Definition expected_type (v : Resp) : string :=
  match v with
  | RSimple _ => SimpleType
  | RError _ => ErrorType
  | RInt _ => IntType
  | RBulk _ => BulkType
  | RArray _ => ArrayType
  end.

(** Two sample inputs: the frame of the specification's example, and an
    array whose bulk replies hold a terminator, nothing (null) and no byte. *)
Definition foo_bar : bytes :=
  bs "*2" ++ CRLF ++ bs "$3" ++ CRLF ++ bs "foo" ++ CRLF
    ++ bs "$3" ++ CRLF ++ bs "bar" ++ CRLF.

Definition binary_array : Resp :=
  RArray
    (mkArrayResp (mkBaseResp ArrayType [])
       [mkBulkResp (mkBaseResp BulkType [bs "a" ++ CRLF ++ bs "b"]) false;
        mkBulkResp (mkBaseResp BulkType []) true;
        mkBulkResp (mkBaseResp BulkType [[]]) false]).

(** The largest bulk length of the redis protocol, 512 MB: a length for
    which [l+2] neither overflows [int] nor passes the limit of [make]. *)
Definition max_bulk_len : Z := 512 * 1024 * 1024.

(** A read takes a prefix off the pending bytes, a prefix that is not empty
    when it returns without an error, and leaves the transport's error as it
    was. *)
Definition reads_prefix (c : M result) : Prop :=
  forall r v e r',
    c r = Ret (v, e) r' ->
    failure r' = failure r /\
    exists used,
      pending r = used ++ pending r' /\ (e = None -> used <> []).

(** What a read may return: a reply that keeps the invariants with a nil
    error, an error with a nil reply, or nothing at all once the reader is
    drained. *)
Definition result_shape (c : M result) : Prop :=
  forall r v e r',
    c r = Ret (v, e) r' ->
    match v, e with
    | Some v, None => invariant v
    | Some _, Some _ => False
    | None, Some _ => True
    | None, None => pending r' = []
    end.

(** What is left of a reply after it has been encoded and decoded: the
    expected tag, the first argument alone, no argument for a null bulk and
    none in the embedded [BaseResp] of an array. *)
Definition normalise_bulk (br : BulkResp) : BulkResp :=
  if Empty br then mkBulkResp (mkBaseResp BulkType []) true
  else mkBulkResp (mkBaseResp BulkType (firstn 1 (Args (BulkResp_base br))))
         false.

Definition normalise (v : Resp) : Resp :=
  match v with
  | RSimple sr =>
      RSimple (mkSimpleResp
                 (mkBaseResp SimpleType (firstn 1 (Args (SimpleResp_base sr)))))
  | RError er =>
      RError (mkErrorResp
                (mkBaseResp ErrorType (firstn 1 (Args (ErrorResp_base er)))))
  | RInt ir =>
      RInt (mkIntResp (mkBaseResp IntType (firstn 1 (Args (IntResp_base ir)))))
  | RBulk br => RBulk (normalise_bulk br)
  | RArray ar =>
      RArray (mkArrayResp (mkBaseResp ArrayType [])
                (map normalise_bulk (ArrayResp_Args ar)))
  end.

(** The first argument of a line reply holds no line feed. *)
Definition line_safe (v : Resp) : Prop :=
  match v with
  | RSimple sr => forall a, nth_error (Args (SimpleResp_base sr)) 0 = Some a ->
                            ~ In LF a
  | RError er => forall a, nth_error (Args (ErrorResp_base er)) 0 = Some a ->
                           ~ In LF a
  | RInt ir => forall a, nth_error (Args (IntResp_base ir)) 0 = Some a ->
                         ~ In LF a
  | RBulk _ | RArray _ => True
  end.

(** The sigil that the [Encode] method of a reply writes first. *)
Definition sigil (v : Resp) : byte :=
  match v with
  | RSimple _ => SimpSep
  | RError _ => ErrSep
  | RInt _ => IntSep
  | RBulk _ => BulkSep
  | RArray _ => ArrSep
  end.



(** * Tactics *)

(** Case analysis on every scrutinee of the goal, innermost first. *)
Ltac split_cases :=
  cbv beta iota;
  repeat match goal with
         | |- context [match ?x with _ => _ end] =>
             lazymatch x with
             | context [match _ with _ => _ end] => fail
             | _ => destruct x eqn:?; cbv beta iota
             end
         end.

Ltac split_cases_in H :=
  cbv beta iota in H;
  repeat match type of H with
         | context [match ?x with _ => _ end] =>
             lazymatch x with
             | context [match _ with _ => _ end] => fail
             | _ => destruct x eqn:?; cbv beta iota in H
             end
         end.

(** Decide the comparisons of the [switch] once the sigil is known. *)
Ltac decide_sigil :=
  repeat match goal with
         | |- context [Byte.eqb ?a ?b] =>
             let v := eval vm_compute in (Byte.eqb a b) in
             change (Byte.eqb a b) with v; cbv beta iota
         end.

(** * The decoder on sample inputs *)

Section Samples.

Example Itob_sample : Itob 1204 = bs "1204".
Proof. reflexivity. Qed.

Example ParseLen_samples :
  ParseLen (bs "12") = (12, None) /\
  ParseLen (bs "-1") = (-1, None) /\
  ParseLen (bs "-2") = (0, Some util_ParseLen_error) /\
  ParseLen (bs "1x") = (0, Some util_ParseLen_error).
Proof. repeat split. Qed.

(** Two frames back to back: the first call leaves the second frame. *)
Example ReadProtocol_back_to_back :
  ReadProtocol (mkReader (bs "+OK" ++ CRLF ++ bs ":7" ++ CRLF) io_EOF) =
  Ret (Some (RSimple (mkSimpleResp (mkBaseResp SimpleType [bs "OK"]))), None)
      (mkReader (bs ":7" ++ CRLF) io_EOF).
Proof. reflexivity. Qed.

(** A bulk payload that holds a terminator is read by its length. *)
Example ReadProtocol_binary_bulk :
  ReadProtocol (mkReader (bs "$4" ++ CRLF ++ bs "a" ++ CRLF ++ bs "b" ++ CRLF)
                  io_EOF) =
  Ret (Some (RBulk (mkBulkResp (mkBaseResp BulkType [bs "a" ++ CRLF ++ bs "b"])
                      false)), None)
      (mkReader [] io_EOF).
Proof. reflexivity. Qed.

Example ReadProtocol_unknown_sigil :
  ReadProtocol (mkReader (bs "hello" ++ CRLF) io_EOF) =
  Ret (None,
       Some (errors_New
               (String.append "ReadResp error, unexpected: "
                  (String.append (string_of_list_byte (bs "hello" ++ CRLF))
                     "h"))))
      (mkReader [] io_EOF).
Proof. reflexivity. Qed.

Example ReadProtocol_no_line_feed :
  ReadProtocol (mkReader (bs "+OK") io_EOF) =
  Ret (None, Some io_EOF) (mkReader [] io_EOF).
Proof. reflexivity. Qed.

Example ReadProtocol_bad_length :
  ReadProtocol (mkReader (bs "$x" ++ CRLF ++ bs "abc") io_EOF) =
  Ret (None, Some util_ParseLen_error) (mkReader (bs "abc") io_EOF).
Proof. reflexivity. Qed.

End Samples.

(** * Termination of the decoder *)

Section Fuel.

Lemma split_delim_shorter delim l line rest :
  split_delim delim l = Some (line, rest) ->
  l = line ++ rest /\ line <> [].
Proof.
  revert line rest; induction l as [|b t IH]; simpl; intros line rest H.
  - discriminate.
  - destruct (Byte.eqb b delim).
    + inversion H; subst; split; [reflexivity | discriminate].
    + destruct (split_delim delim t) as [[l1 r1]|]; [|discriminate].
      inversion H; subst. destruct (IH l1 rest eq_refl) as [-> _].
      split; [reflexivity | discriminate].
Qed.

Lemma read_args_below rd rd' n :
  below rd rd' ->
  forall k k', (k <= k')%nat ->
  forall i args, below (read_args rd n k i args) (read_args rd' n k' i args).
Proof.
  intros Hrd k; induction k as [|k IH]; intros k' Hk i args r o H Hne.
  - destruct k'; simpl in *; destruct (i <? n); try exact H;
      unfold out_of_fuel in H; subst o; contradiction.
  - destruct k' as [|k']; [lia|].
    simpl in *. destruct (i <? n); [|exact H].
    unfold bind in *.
    destruct (rd r) as [[rsp err] r1| |] eqn:E.
    + rewrite (Hrd _ _ E) by discriminate.
      destruct err; [exact H|].
      destruct rsp as [[| | |br|]|]; try exact H.
      apply (IH k'); [lia | exact H | exact Hne].
    + rewrite (Hrd _ _ E) by discriminate. exact H.
    + subst o; contradiction.
Qed.

Lemma read_args_consumes rd n :
  consumes rd ->
  forall k i args r v e r',
    read_args rd n k i args r = Ret (v, e) r' ->
    failure r' = failure r /\
    (List.length (pending r') <= List.length (pending r))%nat.
Proof.
  intros Hrd k; induction k as [|k IH]; intros i args r v e r' H.
  - simpl in H. destruct (i <? n); [discriminate|].
    inversion H; subst; auto.
  - simpl in H. destruct (i <? n); [|inversion H; subst; auto].
    unfold bind in H.
    destruct (rd r) as [[rsp err] r1| |] eqn:E; try discriminate.
    destruct (Hrd _ _ _ _ E) as (Hf & Hle & _).
    destruct err; [inversion H; subst; auto|].
    destruct rsp as [[| | |br|]|]; try (inversion H; subst; auto; fail).
    apply IH in H. destruct H; split; [congruence | lia].
Qed.

Lemma read_args_fuel rd n :
  consumes rd ->
  forall k i args r,
    (List.length (pending r) < k)%nat ->
    (forall r1, (List.length (pending r1) <= List.length (pending r))%nat ->
                rd r1 <> OutOfFuel) ->
    read_args rd n k i args r <> OutOfFuel.
Proof.
  intros Hrd k; induction k as [|k IH]; intros i args r Hk Hne; [lia|].
  simpl. destruct (i <? n); [|discriminate].
  unfold bind.
  destruct (rd r) as [[rsp err] r1| |] eqn:E; try discriminate.
  - destruct (Hrd _ _ _ _ E) as (_ & Hle & Hlt).
    destruct err; [discriminate|].
    destruct rsp as [[| | |br|]|]; try discriminate.
    specialize (Hlt eq_refl).
    apply IH; [lia|]. intros r2 H2. apply Hne. lia.
  - exfalso. apply (Hne r); [lia | exact E].
Qed.

Lemma ReadProtocol_body_below self self' k k' :
  below self self' -> (k <= k')%nat ->
  below (ReadProtocol_body self k) (ReadProtocol_body self' k').
Proof.
  intros Hs Hk r o H Hne. revert H.
  unfold ReadProtocol_body, bind.
  split_cases; try (intro H; exact H).
  intro H. eapply read_args_below; eauto.
Qed.

Lemma nonempty_length (l : bytes) : l <> [] -> (0 < List.length l)%nat.
Proof. destruct l; [congruence | simpl; lia]. Qed.

Lemma ReadProtocol_body_consumes self k :
  consumes self -> consumes (ReadProtocol_body self k).
Proof.
  intros Hs r v e r' H.
  unfold ReadProtocol_body, bind, lift, ret, ReadFull, ReadBytes in H.
  destruct (split_delim LF (pending r)) as [[line rest]|] eqn:E.
  - apply split_delim_shorter in E. destruct E as [E Hl].
    apply nonempty_length in Hl.
    assert (Hlen : (List.length rest < List.length (pending r))%nat)
      by (rewrite E, length_app; lia).
    clear E.
    split_cases_in H; try discriminate;
      try (inversion H; subst; simpl; repeat split; auto; try lia;
           rewrite ?length_skipn; lia).
    apply (read_args_consumes _ _ Hs) in H. simpl in H.
    destruct H as [Hf Hle]. repeat split; auto; lia.
  - inversion H; subst; simpl. repeat split; auto; try lia. discriminate.
Qed.

Lemma ReadProtocol_body_fuel self k r :
  consumes self ->
  (List.length (pending r) <= k)%nat ->
  (forall r1, (List.length (pending r1) < List.length (pending r))%nat ->
              self r1 <> OutOfFuel) ->
  ReadProtocol_body self k r <> OutOfFuel.
Proof.
  intros Hs Hk Hne.
  unfold ReadProtocol_body, bind, lift, ret, ReadFull, ReadBytes.
  destruct (split_delim LF (pending r)) as [[line rest]|] eqn:E.
  - apply split_delim_shorter in E. destruct E as [E Hl].
    apply nonempty_length in Hl.
    assert (Hlen : (List.length rest < List.length (pending r))%nat)
      by (rewrite E, length_app; lia).
    clear E.
    split_cases; try discriminate.
    apply read_args_fuel; simpl; auto; try lia.
    intros r1 H1. apply Hne. lia.
  - discriminate.
Qed.

Lemma ReadProtocol_fuel_consumes fuel : consumes (ReadProtocol_fuel fuel).
Proof.
  induction fuel as [|f IH].
  - intros r v e r' H. discriminate.
  - apply ReadProtocol_body_consumes, IH.
Qed.

Lemma ReadProtocol_fuel_below f f' :
  (f <= f')%nat -> below (ReadProtocol_fuel f) (ReadProtocol_fuel f').
Proof.
  revert f'; induction f as [|f IH]; intros f' Hf.
  - intros r o H Hne. simpl in H. unfold out_of_fuel in H.
    subst o; contradiction.
  - destruct f' as [|f']; [lia|]. simpl.
    apply ReadProtocol_body_below; [apply IH|]; lia.
Qed.

Lemma ReadProtocol_fuel_enough f r :
  (List.length (pending r) < f)%nat -> ReadProtocol_fuel f r <> OutOfFuel.
Proof.
  revert r; induction f as [|f IH]; intros r Hf; [lia|].
  simpl. apply ReadProtocol_body_fuel.
  - apply ReadProtocol_fuel_consumes.
  - lia.
  - intros r1 H1. apply IH. lia.
Qed.

(** The decoder returns or panics on every reader: the fuel of the model is
    never exhausted. *)
Lemma ReadProtocol_total r : ReadProtocol r <> OutOfFuel.
Proof. apply ReadProtocol_fuel_enough. lia. Qed.

Lemma ReadProtocol_fuel_eq f r :
  (List.length (pending r) < f)%nat -> ReadProtocol_fuel f r = ReadProtocol r.
Proof.
  intro Hf. apply (ReadProtocol_fuel_below (S (List.length (pending r))) f).
  - lia.
  - reflexivity.
  - apply ReadProtocol_total.
Qed.

Lemma ReadProtocol_consumes : consumes ReadProtocol.
Proof. intros r v e r' H. exact (ReadProtocol_fuel_consumes _ _ _ _ _ H). Qed.

(** The recursion equation of the decoder: one pass through the body of the
    Go function, the recursive calls being the decoder itself. *)
Lemma ReadProtocol_unfold r :
  ReadProtocol r = ReadProtocol_body ReadProtocol (List.length (pending r)) r.
Proof.
  symmetry.
  apply (ReadProtocol_body_below
           (ReadProtocol_fuel (List.length (pending r))) ReadProtocol
           (List.length (pending r)) (List.length (pending r))).
  - intros r1 o H Hne.
    destruct (Nat.lt_ge_cases (List.length (pending r1))
                (List.length (pending r))) as [Hlt|Hge].
    + rewrite <- (ReadProtocol_fuel_eq _ _ Hlt). exact H.
    + apply (ReadProtocol_fuel_below (List.length (pending r))); auto; lia.
  - lia.
  - reflexivity.
  - apply ReadProtocol_total.
Qed.

End Fuel.

(** * The length codec *)

Section LengthCodec.

Lemma digit_spec d :
  (d < 10)%N ->
  is_digit (digit d) = true /\ Z.of_N (Byte.to_N (digit d)) - 48 = Z.of_N d.
Proof.
  intro H.
  destruct d as [|p]; [vm_compute; auto|].
  do 4 (try (destruct p as [p|p|]); try lia); vm_compute; auto.
Qed.

Lemma parse_digits_app p q : forall n,
  parse_digits n (p ++ q) =
  match parse_digits n p with
  | Some m => parse_digits m q
  | None => None
  end.
Proof.
  induction p as [|b p IH]; intro n; simpl; [reflexivity|].
  destruct (is_digit b); [apply IH | reflexivity].
Qed.

Lemma parse_digits_Forall p : forall n m,
  parse_digits n p = Some m -> Forall (fun b => is_digit b = true) p.
Proof.
  induction p as [|b p IH]; intros n m H; simpl in H; [constructor|].
  destruct (is_digit b) eqn:E; [|discriminate].
  constructor; [exact E | eapply IH; eauto].
Qed.

Lemma digits_of_acc fuel : forall n acc,
  digits_of fuel n acc = digits_of fuel n [] ++ acc.
Proof.
  induction fuel as [|f IH]; intros n acc; simpl; [reflexivity|].
  destruct (n <? 10)%N; [reflexivity|].
  rewrite IH, (IH _ [_]), <- app_assoc. reflexivity.
Qed.

Lemma digits_of_nonempty fuel n : digits_of (S fuel) n [] <> [].
Proof.
  simpl. destruct (n <? 10)%N; [discriminate|].
  rewrite digits_of_acc. intro H. apply app_eq_nil in H.
  destruct H; discriminate.
Qed.

Lemma parse_digits_of fuel : forall n,
  (n < 2 ^ N.of_nat fuel)%N ->
  parse_digits 0 (digits_of fuel n []) = Some (Z.of_N n).
Proof.
  induction fuel as [|f IH]; intros n Hn.
  - simpl in *. f_equal. lia.
  - rewrite Nat2N.inj_succ, N.pow_succ_r' in Hn.
    assert (Hm : (n mod 10 < 10)%N) by (apply N.mod_lt; lia).
    destruct (digit_spec _ Hm) as [Hd Hv].
    simpl. destruct (n <? 10)%N eqn:E.
    + apply N.ltb_lt in E. simpl. rewrite Hd, Hv.
      rewrite N.mod_small by exact E. reflexivity.
    + apply N.ltb_ge in E.
      rewrite digits_of_acc, parse_digits_app, IH.
      * simpl. rewrite Hd, Hv. f_equal.
        pose proof (N.div_mod n 10). lia.
      * apply N.Div0.div_lt_upper_bound; lia.
Qed.

Lemma parse_digits_Itob n : parse_digits 0 (Itob n) = Some (Z.of_N n).
Proof.
  apply parse_digits_of.
  rewrite Nat2N.inj_succ, N2Nat.id.
  destruct n as [|p]; [reflexivity|].
  apply N.log2_spec. reflexivity.
Qed.

Lemma Itob_digits n : Forall (fun b => is_digit b = true) (Itob n).
Proof. eapply parse_digits_Forall, parse_digits_Itob. Qed.

Lemma Itob_no_LF n : ~ In LF (Itob n).
Proof.
  intro H. pose proof (Itob_digits n) as F.
  rewrite Forall_forall in F. apply F in H. discriminate.
Qed.

(** The two functions of the length codec are inverse on lengths. *)
Lemma ParseLen_Itob n : ParseLen (Itob n) = (Z.of_N n, None).
Proof.
  unfold ParseLen.
  destruct (Itob n) as [|b p] eqn:E.
  - exfalso. revert E. apply digits_of_nonempty.
  - destruct (list_eq_dec byte_eq_dec (b :: p) (bs "-1")) as [Heq|_].
    + pose proof (Itob_digits n) as F. rewrite E, Heq in F.
      inversion F; discriminate.
    + rewrite <- E, parse_digits_Itob. reflexivity.
Qed.

End LengthCodec.

(** * Reading one header line *)

Section Lines.

Lemma eqb_neq (b c : byte) : b <> c -> Byte.eqb b c = false.
Proof.
  intro H. destruct (Byte.eqb b c) eqn:E; [|reflexivity].
  apply Byte.byte_dec_bl in E. contradiction.
Qed.

Lemma split_delim_line body rest :
  ~ In LF body ->
  split_delim LF (body ++ LF :: rest) = Some (body ++ [LF], rest).
Proof.
  induction body as [|b body IH]; intro H; simpl.
  - reflexivity.
  - rewrite eqb_neq by (intro; subst; apply H; left; reflexivity).
    rewrite IH by (intro; apply H; right; assumption). reflexivity.
Qed.

Lemma ReadBytes_line body rest fl :
  ~ In LF body ->
  ReadBytes LF (mkReader (body ++ LF :: rest) fl) =
  Ret (body ++ [LF], None) (mkReader rest fl).
Proof.
  intro H. unfold ReadBytes. simpl pending.
  rewrite split_delim_line by exact H. reflexivity.
Qed.

(** [res[1:len(res)-2]] on a line of at least three bytes: the sigil and the
    last two bytes are dropped. *)
Lemma slice_payload (b0 c d : byte) (text : bytes) :
  slice (b0 :: text ++ [c; d]) 1 (len (b0 :: text ++ [c; d]) - 2) = Done text.
Proof.
  unfold slice, len. simpl List.length. rewrite length_app. simpl List.length.
  replace ((0 <=? 1)
           && (1 <=? Z.of_nat (S (List.length text + 2)) - 2)
           && (Z.of_nat (S (List.length text + 2)) - 2
               <=? Z.of_nat (S (List.length text + 2))))
    with true by (symmetry; rewrite !andb_true_iff, !Z.leb_le; lia).
  replace (Z.of_nat (S (List.length text + 2)) - 2 - 1)
    with (Z.of_nat (List.length text)) by lia.
  rewrite Nat2Z.id.
  replace (Z.to_nat 1) with 1%nat by reflexivity.
  simpl skipn. rewrite firstn_app, firstn_all, Nat.sub_diag. simpl.
  rewrite app_nil_r. reflexivity.
Qed.

(** [buf[:len(buf)-2]] on a payload block. *)
Lemma slice_block (c d : byte) (text : bytes) :
  slice (text ++ [c; d]) 0 (len (text ++ [c; d]) - 2) = Done text.
Proof.
  unfold slice, len. rewrite length_app. simpl List.length.
  replace ((0 <=? 0)
           && (0 <=? Z.of_nat (List.length text + 2) - 2)
           && (Z.of_nat (List.length text + 2) - 2
               <=? Z.of_nat (List.length text + 2)))
    with true by (symmetry; rewrite !andb_true_iff, !Z.leb_le; lia).
  replace (Z.of_nat (List.length text + 2) - 2 - 0)
    with (Z.of_nat (List.length text)) by lia.
  rewrite Nat2Z.id. simpl skipn.
  rewrite firstn_app, firstn_all, Nat.sub_diag. simpl. rewrite app_nil_r.
  reflexivity.
Qed.

(** [io.ReadFull] when the reader holds the whole block. *)
Lemma ReadFull_block (block rest : bytes) fl :
  ReadFull (len block) (mkReader (block ++ rest) fl) =
  Ret (block, len block, None) (mkReader rest fl).
Proof.
  unfold ReadFull, len. simpl pending. rewrite length_app, Nat2Z.id.
  replace (Z.of_nat (List.length block)
           <=? Z.of_nat (List.length block + List.length rest))
    with true by (symmetry; rewrite Z.leb_le; lia).
  rewrite firstn_app, firstn_all, Nat.sub_diag, skipn_app, skipn_all,
    Nat.sub_diag. simpl. rewrite app_nil_r. reflexivity.
Qed.

End Lines.

(** * The branches of the decoder *)

Section Headers.

Lemma ReadBytes_header b0 text c rest fl :
  b0 <> LF -> ~ In LF text -> c <> LF ->
  ReadBytes LF (mkReader (b0 :: text ++ c :: LF :: rest) fl) =
  Ret (b0 :: text ++ [c; LF], None) (mkReader rest fl).
Proof.
  intros Hb Ht Hc.
  replace (b0 :: text ++ c :: LF :: rest)
    with ((b0 :: text ++ [c]) ++ LF :: rest)
    by (simpl; rewrite <- app_assoc; reflexivity).
  rewrite ReadBytes_line.
  - simpl. rewrite <- app_assoc. reflexivity.
  - simpl. rewrite in_app_iff. simpl. intuition congruence.
Qed.

Lemma ParseLen_no_LF p l : ParseLen p = (l, None) -> ~ In LF p.
Proof.
  unfold ParseLen. destruct p as [|b p]; [discriminate|].
  destruct (list_eq_dec byte_eq_dec (b :: p) (bs "-1")) as [->|_].
  - intros _ H. vm_compute in H. intuition discriminate.
  - destruct (parse_digits 0 (b :: p)) as [n|] eqn:E; [|discriminate].
    intros _ H. apply parse_digits_Forall in E.
    rewrite Forall_forall in E. apply E in H. discriminate.
Qed.

End Headers.

(** One pass through [ReadProtocol] on a reader that starts with a header
    line of at least three bytes. *)
Ltac read_header :=
  rewrite ReadProtocol_unfold;
  unfold ReadProtocol_body, bind, lift, ret;
  rewrite ReadBytes_header by (auto; discriminate);
  cbv beta iota; cbn [index nth_error]; cbv beta iota;
  decide_sigil; cbn [orb]; cbv beta iota;
  rewrite ?slice_payload; cbv beta iota.

(** One pass through [ReadProtocol] on a reader whose first line is
    [b0 :: body ++ [LF]]. *)
Ltac read_line b0 body rest :=
  rewrite ReadProtocol_unfold;
  unfold ReadProtocol_body, bind, lift, ret;
  change (b0 :: body ++ LF :: rest) with ((b0 :: body) ++ LF :: rest);
  rewrite ReadBytes_line by (intros [?|?]; [discriminate | contradiction]);
  cbv beta iota; cbn [index nth_error app]; cbv beta iota;
  decide_sigil; cbn [orb]; cbv beta iota.

Section Branches.

Lemma read_Simple text c rest fl :
  ~ In LF text -> c <> LF ->
  ReadProtocol (mkReader (SimpSep :: text ++ c :: LF :: rest) fl) =
  Ret (Some (RSimple (mkSimpleResp (mkBaseResp SimpleType [text]))), None)
      (mkReader rest fl).
Proof. intros Ht Hc. read_header. reflexivity. Qed.

Lemma read_Error text c rest fl :
  ~ In LF text -> c <> LF ->
  ReadProtocol (mkReader (ErrSep :: text ++ c :: LF :: rest) fl) =
  Ret (Some (RError (mkErrorResp (mkBaseResp ErrorType [text]))), None)
      (mkReader rest fl).
Proof. intros Ht Hc. read_header. reflexivity. Qed.

Lemma read_Int text c rest fl :
  ~ In LF text -> c <> LF ->
  ReadProtocol (mkReader (IntSep :: text ++ c :: LF :: rest) fl) =
  Ret (Some (RInt (mkIntResp (mkBaseResp IntType [text]))), None)
      (mkReader rest fl).
Proof. intros Ht Hc. read_header. reflexivity. Qed.

Lemma read_Bulk_null p c rest fl :
  ParseLen p = (-1, None) -> c <> LF ->
  ReadProtocol (mkReader (BulkSep :: p ++ c :: LF :: rest) fl) =
  Ret (Some (RBulk (mkBulkResp (mkBaseResp BulkType []) true)), None)
      (mkReader rest fl).
Proof.
  intros Hp Hc. pose proof (ParseLen_no_LF _ _ Hp).
  read_header. rewrite Hp. reflexivity.
Qed.

(** A bulk reply whose block is there: [len(block)] bytes are the payload,
    the two after them are dropped unread. *)
Lemma read_Bulk p c block d1 d2 rest fl :
  ParseLen p = (len block, None) -> c <> LF ->
  ReadProtocol
    (mkReader (BulkSep :: p ++ c :: LF :: block ++ d1 :: d2 :: rest) fl) =
  Ret (Some (RBulk (mkBulkResp (mkBaseResp BulkType [block]) false)), None)
      (mkReader rest fl).
Proof.
  intros Hp Hc. pose proof (ParseLen_no_LF _ _ Hp).
  read_header. rewrite Hp.
  assert (Hl : len (block ++ [d1; d2]) = len block + 2)
    by (unfold len; rewrite length_app; simpl; lia).
  replace (len block =? -1) with false
    by (symmetry; apply Z.eqb_neq; unfold len; lia).
  replace (len block + 2 <? 0) with false
    by (symmetry; apply Z.ltb_ge; unfold len; lia).
  replace (block ++ d1 :: d2 :: rest) with ((block ++ [d1; d2]) ++ rest)
    by (rewrite <- app_assoc; reflexivity).
  rewrite <- Hl, ReadFull_block. cbv beta iota.
  rewrite Z.eqb_refl. cbn [negb orb]. rewrite slice_block. reflexivity.
Qed.

Lemma read_Array p c n rest fl :
  ParseLen p = (n, None) -> c <> LF ->
  ReadProtocol (mkReader (ArrSep :: p ++ c :: LF :: rest) fl) =
  read_args ReadProtocol n
    (List.length (ArrSep :: p ++ c :: LF :: rest)) 0 [] (mkReader rest fl).
Proof.
  intros Hp Hc. pose proof (ParseLen_no_LF _ _ Hp).
  read_header. rewrite Hp. reflexivity.
Qed.

End Branches.

(** * The array loop *)

Section ArrayLoop.

Lemma read_args_done rd n k i args r :
  n <= i ->
  read_args rd n k i args r =
  Ret (Some (RArray (mkArrayResp (mkBaseResp ArrayType []) args)), None) r.
Proof.
  intro H. destruct k; simpl;
    (replace (i <? n) with false by (symmetry; apply Z.ltb_ge; lia));
    reflexivity.
Qed.

Lemma read_args_bulks n r brs r' :
  reads_bulks r brs r' ->
  forall k i args,
    (List.length (pending r) < k)%nat -> i + len brs <= n ->
    exists k',
      (List.length (pending r') < k')%nat /\
      read_args ReadProtocol n k i args r =
      read_args ReadProtocol n k' (i + len brs) (args ++ brs) r'.
Proof.
  induction 1 as [r|r br r1 brs r' Hrd Hrest IH]; intros k i args Hk Hn.
  - exists k. split; [exact Hk|].
    unfold len; simpl. rewrite Z.add_0_r, app_nil_r. reflexivity.
  - destruct k as [|k]; [lia|].
    assert (Hlen : len (br :: brs) = 1 + len brs)
      by (unfold len; simpl List.length; lia).
    assert (Hpos : 0 <= len brs) by (unfold len; lia).
    destruct (ReadProtocol_consumes _ _ _ _ Hrd) as (_ & _ & Hlt).
    specialize (Hlt eq_refl).
    destruct (IH k (i + 1) (args ++ [br])) as (k' & Hk' & E); try lia.
    exists k'. split; [exact Hk'|].
    simpl read_args.
    replace (i <? n) with true by (symmetry; apply Z.ltb_lt; lia).
    unfold bind. rewrite Hrd. cbv beta iota. rewrite E.
    rewrite Hlen, <- app_assoc. simpl.
    replace (i + 1 + len brs) with (i + (1 + len brs)) by lia. reflexivity.
Qed.

Lemma read_args_mismatch n k i args r v r' :
  i < n -> (List.length (pending r) < k)%nat ->
  ReadProtocol r = Ret (Some v, None) r' -> is_BulkResp v = false ->
  read_args ReadProtocol n k i args r = Ret (None, Some must_read_bulk) r'.
Proof.
  intros Hi Hk Hrd Hv. destruct k as [|k]; [lia|].
  simpl read_args.
  replace (i <? n) with true by (symmetry; apply Z.ltb_lt; lia).
  unfold bind. rewrite Hrd. cbv beta iota.
  destruct v; try reflexivity. discriminate.
Qed.

Lemma header_length (b0 c : byte) (p rest : bytes) :
  (List.length rest < List.length (b0 :: p ++ c :: LF :: rest))%nat.
Proof. simpl. rewrite length_app. simpl. lia. Qed.

(** An array header followed by as many bulk replies as it declares. *)
Lemma read_Array_bulks p c n rest fl brs r' :
  ParseLen p = (n, None) -> c <> LF ->
  reads_bulks (mkReader rest fl) brs r' -> len brs = n ->
  ReadProtocol (mkReader (ArrSep :: p ++ c :: LF :: rest) fl) =
  Ret (Some (RArray (mkArrayResp (mkBaseResp ArrayType []) brs)), None) r'.
Proof.
  intros Hp Hc Hb Hn. rewrite (read_Array _ _ _ _ _ Hp Hc).
  destruct (read_args_bulks n _ _ _ Hb
              (List.length (ArrSep :: p ++ c :: LF :: rest)) 0 [])
    as (k' & _ & E).
  - apply header_length.
  - lia.
  - rewrite E. apply read_args_done. lia.
Qed.

(** An array header followed by fewer bulk replies than it declares, and
    then by a reply of another type. *)
Lemma read_Array_mismatch p c n rest fl brs r1 v r2 :
  ParseLen p = (n, None) -> c <> LF ->
  reads_bulks (mkReader rest fl) brs r1 -> len brs < n ->
  ReadProtocol r1 = Ret (Some v, None) r2 -> is_BulkResp v = false ->
  ReadProtocol (mkReader (ArrSep :: p ++ c :: LF :: rest) fl) =
  Ret (None, Some must_read_bulk) r2.
Proof.
  intros Hp Hc Hb Hn Hrd Hv. rewrite (read_Array _ _ _ _ _ Hp Hc).
  destruct (read_args_bulks n _ _ _ Hb
              (List.length (ArrSep :: p ++ c :: LF :: rest)) 0 [])
    as (k' & Hk' & E).
  - apply header_length.
  - lia.
  - rewrite E. eapply read_args_mismatch; eauto; lia.
Qed.

End ArrayLoop.

(** * Frames and values *)

Section Codec.

Lemma bulk_codec_null :
  bulk_codec (mkBulkResp (mkBaseResp BulkType []) true)
    (BulkSep :: bs "-1" ++ CRLF).
Proof.
  split; [reflexivity|]. intros rest fl.
  change ((BulkSep :: bs "-1" ++ CRLF) ++ rest)
    with (BulkSep :: bs "-1" ++ CR :: LF :: rest).
  apply read_Bulk_null; [reflexivity | discriminate].
Qed.

Lemma bulk_codec_content content :
  bulk_codec (mkBulkResp (mkBaseResp BulkType [content]) false)
    (BulkSep :: Itob (N.of_nat (List.length content)) ++ CRLF
       ++ content ++ CRLF).
Proof.
  split; [reflexivity|]. intros rest fl.
  replace ((BulkSep :: Itob (N.of_nat (List.length content)) ++ CRLF
              ++ content ++ CRLF) ++ rest)
    with (BulkSep :: Itob (N.of_nat (List.length content))
            ++ CR :: LF :: content ++ CR :: LF :: rest)
    by (simpl; rewrite <- !app_assoc; simpl; rewrite <- !app_assoc;
        reflexivity).
  apply read_Bulk; [|discriminate].
  rewrite ParseLen_Itob. unfold len. rewrite nat_N_Z. reflexivity.
Qed.

Lemma bulk_frame_codec f : bulk_frame f -> exists br, bulk_codec br f.
Proof.
  intros [|content]; eexists;
    [apply bulk_codec_null | apply bulk_codec_content].
Qed.

Lemma bulk_invariant_codec br : bulk_invariant br -> exists f, bulk_codec br f.
Proof.
  destruct br as [[rt args] e]. unfold bulk_invariant; simpl.
  intros [-> [[-> ->]|[-> [content ->]]]]; eexists;
    [apply bulk_codec_null | apply bulk_codec_content].
Qed.

Lemma Encode_args_codec brs fs :
  Forall2 bulk_codec brs fs ->
  forall b, Encode_args brs b = Done (b ++ List.concat fs).
Proof.
  induction 1 as [|br f brs fs [He _] _ IH]; intro b; simpl.
  - rewrite app_nil_r. reflexivity.
  - rewrite He. simpl. rewrite IH, <- app_assoc. reflexivity.
Qed.

Lemma reads_bulks_codec brs fs :
  Forall2 bulk_codec brs fs ->
  forall rest fl,
    reads_bulks (mkReader (List.concat fs ++ rest) fl) brs (mkReader rest fl).
Proof.
  induction 1 as [|br f brs fs [_ Hr] _ IH]; intros rest fl; simpl.
  - constructor.
  - rewrite <- app_assoc. econstructor; [apply Hr | apply IH].
Qed.

(** An array of bulk replies and the frame made of their frames. *)
Lemma array_codec brs fs :
  Forall2 bulk_codec brs fs ->
  ArrayResp_Encode (mkArrayResp (mkBaseResp ArrayType []) brs) =
  Done (ArrSep :: Itob (N.of_nat (List.length fs)) ++ CRLF ++ List.concat fs) /\
  forall rest fl,
    ReadProtocol
      (mkReader
         ((ArrSep :: Itob (N.of_nat (List.length fs)) ++ CRLF ++ List.concat fs)
            ++ rest) fl) =
    Ret (Some (RArray (mkArrayResp (mkBaseResp ArrayType []) brs)), None)
        (mkReader rest fl).
Proof.
  intro H. pose proof (Forall2_length H) as Hlen. split.
  - unfold ArrayResp_Encode. simpl.
    rewrite (Encode_args_codec _ _ H), Hlen. simpl.
    rewrite <- app_assoc. reflexivity.
  - intros rest fl.
    replace ((ArrSep :: Itob (N.of_nat (List.length fs)) ++ CRLF ++ List.concat fs)
               ++ rest)
      with (ArrSep :: Itob (N.of_nat (List.length fs))
              ++ CR :: LF :: List.concat fs ++ rest)
      by (simpl; rewrite <- !app_assoc; reflexivity).
    apply read_Array_bulks with (n := len brs).
    + rewrite ParseLen_Itob, <- Hlen. unfold len. rewrite nat_N_Z.
      reflexivity.
    + discriminate.
    + apply reads_bulks_codec, H.
    + reflexivity.
Qed.

Lemma Forall_codec_frames fs :
  Forall bulk_frame fs -> exists brs, Forall2 bulk_codec brs fs.
Proof.
  induction 1 as [|f fs Hf _ [brs IH]].
  - exists []. constructor.
  - destruct (bulk_frame_codec _ Hf) as [br Hbr].
    exists (br :: brs). constructor; assumption.
Qed.

Lemma Forall_codec_values brs :
  Forall bulk_invariant brs -> exists fs, Forall2 bulk_codec brs fs.
Proof.
  induction 1 as [|br brs Hb _ [fs IH]].
  - exists []. constructor.
  - destruct (bulk_invariant_codec _ Hb) as [f Hf].
    exists (f :: fs). constructor; assumption.
Qed.

End Codec.

(** * The claims *)

(** C1 (the code departs from the claim).  A bulk header declares a length
    [l] from [0] to 512 MB, so that [make([]byte, l+2)] allocates, and fewer
    than [l + 2] bytes follow before the transport ends or fails.  The claim
    asks for an I/O error; the decoder returns no reply and NO error: it
    hands back the nil error left by [ParseLen] instead of the one
    [io.ReadFull] reported. *)
Theorem short_bulk_read_returns_nil_error p c l avail fl :
  ParseLen p = (l, None) -> c <> LF -> 0 <= l <= max_bulk_len ->
  len avail < l + 2 ->
  ReadProtocol (mkReader (BulkSep :: p ++ c :: LF :: avail) fl) =
  Ret (None, None) (mkReader [] fl).
Proof.
  intros Hp Hc [Hl Hmax] Ha. pose proof (ParseLen_no_LF _ _ Hp).
  read_header. rewrite Hp.
  replace (l =? -1) with false by (symmetry; apply Z.eqb_neq; lia).
  replace (l + 2 <? 0) with false by (symmetry; apply Z.ltb_ge; lia).
  unfold ReadFull. cbn [pending failure].
  replace (l + 2 <=? len avail) with false by (symmetry; apply Z.leb_gt; lia).
  cbv beta iota. reflexivity.
Qed.

Lemma short_bulk_read_at_10 :
  ReadProtocol (mkReader (bs "$10" ++ CRLF ++ bs "abc") io_EOF) =
  Ret (None, None) (mkReader [] io_EOF).
Proof.
  apply (short_bulk_read_returns_nil_error (bs "10") CR 10 (bs "abc") io_EOF).
  - reflexivity.
  - discriminate.
  - unfold max_bulk_len. lia.
  - vm_compute. reflexivity.
Defined.

(** C2 (the code departs from the claim).  The decoder does come to an end
    on every reader, but not always with a reply or an error: a header line
    of two bytes, a sigil and a line feed, makes the slice expression
    [res[1:len(res)-2]] panic, for each of the five sigils. *)
Theorem short_header_line_panics :
  (forall r, ReadProtocol r <> OutOfFuel) /\
  (forall b0 rest fl,
      In b0 [SimpSep; ErrSep; IntSep; BulkSep; ArrSep] ->
      ReadProtocol (mkReader (b0 :: LF :: rest) fl) =
      Crash slice_bounds_out_of_range).
Proof.
  split; [exact ReadProtocol_total|].
  intros b0 rest fl H. simpl in H.
  destruct H as [<-|[<-|[<-|[<-|[<-|[]]]]]]; reflexivity.
Qed.

Lemma short_header_line_panics_at_plus :
  ReadProtocol (mkReader [SimpSep; LF] io_EOF) =
  Crash slice_bounds_out_of_range.
Proof.
  apply (proj2 short_header_line_panics SimpSep [] io_EOF).
  simpl. left. reflexivity.
Defined.

(** C3.  Every well-formed frame of the five kinds (null bulk, empty bulk
    and arrays of any number of bulk replies with arbitrary content
    included), whatever follows it on the reader, is decoded to a reply
    whose encoding is the frame itself, byte for byte; the decoder stops
    right after the frame. *)
Theorem frame_round_trip f :
  frame f ->
  forall rest fl,
  exists v,
    ReadProtocol (mkReader (f ++ rest) fl) =
    Ret (Some v, None) (mkReader rest fl) /\
    Encode v = Done f.
Proof.
  intros [text Ht|text Ht|text Ht|f' Hf|fs Hfs] rest fl.
  - eexists. split.
    + replace ((SimpSep :: text ++ CRLF) ++ rest)
        with (SimpSep :: text ++ CR :: LF :: rest)
        by (simpl; rewrite <- app_assoc; reflexivity).
      apply read_Simple; [exact Ht | discriminate].
    + reflexivity.
  - eexists. split.
    + replace ((ErrSep :: text ++ CRLF) ++ rest)
        with (ErrSep :: text ++ CR :: LF :: rest)
        by (simpl; rewrite <- app_assoc; reflexivity).
      apply read_Error; [exact Ht | discriminate].
    + reflexivity.
  - eexists. split.
    + replace ((IntSep :: text ++ CRLF) ++ rest)
        with (IntSep :: text ++ CR :: LF :: rest)
        by (simpl; rewrite <- app_assoc; reflexivity).
      apply read_Int; [exact Ht | discriminate].
    + reflexivity.
  - destruct (bulk_frame_codec _ Hf) as [br [He Hr]].
    exists (RBulk br). split; [apply Hr | exact He].
  - destruct (Forall_codec_frames _ Hfs) as [brs Hbrs].
    destruct (array_codec _ _ Hbrs) as [He Hr].
    exists (RArray (mkArrayResp (mkBaseResp ArrayType []) brs)).
    split; [apply Hr | exact He].
Qed.

Lemma frame_round_trip_foo_bar :
  exists v,
    ReadProtocol (mkReader (foo_bar ++ []) io_EOF) =
    Ret (Some v, None) (mkReader [] io_EOF) /\
    Encode v = Done foo_bar.
Proof.
  apply (frame_round_trip foo_bar).
  change foo_bar
    with (ArrSep
            :: Itob (N.of_nat
                       (List.length
                          [BulkSep :: Itob (N.of_nat (List.length (bs "foo")))
                             ++ CRLF ++ bs "foo" ++ CRLF;
                           BulkSep :: Itob (N.of_nat (List.length (bs "bar")))
                             ++ CRLF ++ bs "bar" ++ CRLF]))
            ++ CRLF
            ++ List.concat
                 [BulkSep :: Itob (N.of_nat (List.length (bs "foo")))
                    ++ CRLF ++ bs "foo" ++ CRLF;
                  BulkSep :: Itob (N.of_nat (List.length (bs "bar")))
                    ++ CRLF ++ bs "bar" ++ CRLF]).
  apply frame_Array. repeat constructor.
Defined.

(** C4.  Every reply that satisfies the invariants of its variant is encoded
    without a panic, and decoding the bytes produced gives the reply back,
    whatever follows them on the reader. *)
Theorem value_round_trip v :
  invariant v ->
  exists f,
    Encode v = Done f /\
    forall rest fl,
      ReadProtocol (mkReader (f ++ rest) fl) =
      Ret (Some v, None) (mkReader rest fl).
Proof.
  destruct v as [[[rt args]]|[[rt args]]|[[rt args]]|br|[[rt args] brs]];
    unfold invariant, line_invariant, array_invariant; simpl.
  - intros [-> (text & -> & Ht)]. eexists. split; [reflexivity|].
    intros rest fl.
    replace (([SimpSep] ++ text ++ CRLF) ++ rest)
      with (SimpSep :: text ++ CR :: LF :: rest)
      by (simpl; rewrite <- app_assoc; reflexivity).
    apply read_Simple; [exact Ht | discriminate].
  - intros [-> (text & -> & Ht)]. eexists. split; [reflexivity|].
    intros rest fl.
    replace (([ErrSep] ++ text ++ CRLF) ++ rest)
      with (ErrSep :: text ++ CR :: LF :: rest)
      by (simpl; rewrite <- app_assoc; reflexivity).
    apply read_Error; [exact Ht | discriminate].
  - intros [-> (text & -> & Ht)]. eexists. split; [reflexivity|].
    intros rest fl.
    replace (([IntSep] ++ text ++ CRLF) ++ rest)
      with (IntSep :: text ++ CR :: LF :: rest)
      by (simpl; rewrite <- app_assoc; reflexivity).
    apply read_Int; [exact Ht | discriminate].
  - intro H. destruct (bulk_invariant_codec _ H) as [f [He Hr]].
    exists f. split; assumption.
  - intros [E H]. simpl in E, H. inversion E; subst.
    destruct (Forall_codec_values _ H) as [fs Hfs].
    destruct (array_codec _ _ Hfs) as [He Hr].
    eexists. split; [exact He | exact Hr].
Qed.

Lemma value_round_trip_binary_array :
  exists f,
    Encode binary_array = Done f /\
    forall rest fl,
      ReadProtocol (mkReader (f ++ rest) fl) =
      Ret (Some binary_array, None) (mkReader rest fl).
Proof.
  apply (value_round_trip binary_array).
  split; [reflexivity|]. simpl.
  repeat apply Forall_cons; try apply Forall_nil;
    (split; [reflexivity|]); simpl.
  - right. split; [reflexivity|]. eexists. reflexivity.
  - left. split; reflexivity.
  - right. split; [reflexivity|]. eexists. reflexivity.
Defined.

(** C5.  The five bytes [$-1\r\n] decode to the null bulk reply and nothing
    after them is touched; a null bulk reply encodes to exactly these five
    bytes; the empty bulk reply encodes to something else: the length [0], a
    terminator, no content, and a terminator again. *)
Theorem null_bulk_and_empty_bulk :
  (forall rest fl,
      ReadProtocol (mkReader (bs "$-1" ++ CRLF ++ rest) fl) =
      Ret (Some (RBulk (mkBulkResp (mkBaseResp BulkType []) true)), None)
          (mkReader rest fl)) /\
  List.length (bs "$-1" ++ CRLF) = 5%nat /\
  (forall args,
      BulkResp_Encode (mkBulkResp (mkBaseResp BulkType args) true) =
      Done (bs "$-1" ++ CRLF)) /\
  BulkResp_Encode (mkBulkResp (mkBaseResp BulkType [[]]) false) =
  Done (BulkSep :: bs "0" ++ CRLF ++ [] ++ CRLF) /\
  BulkSep :: bs "0" ++ CRLF ++ [] ++ CRLF <> bs "$-1" ++ CRLF.
Proof.
  split; [|split; [|split; [|split]]].
  - intros rest fl. destruct bulk_codec_null as [_ H]. apply (H rest fl).
  - reflexivity.
  - reflexivity.
  - reflexivity.
  - discriminate.
Qed.

(** C6.  [PING\r\n] and [ping\r\n] decode to an array of the one bulk reply
    [PING], [QUIT\r\n] to an array of the one bulk reply [QUIT]; a line that
    starts with [P], [p], [Q] or [q] and is not six bytes long is refused
    with the error "raw command must be quit or ping". *)
Theorem inline_commands :
  (forall rest fl,
      ReadProtocol (mkReader (bs "PING" ++ CRLF ++ rest) fl) =
      Ret (Some (inline_reply (bs "PING")), None) (mkReader rest fl) /\
      ReadProtocol (mkReader (bs "ping" ++ CRLF ++ rest) fl) =
      Ret (Some (inline_reply (bs "PING")), None) (mkReader rest fl) /\
      ReadProtocol (mkReader (bs "QUIT" ++ CRLF ++ rest) fl) =
      Ret (Some (inline_reply (bs "QUIT")), None) (mkReader rest fl)) /\
  (forall b0 body rest fl,
      In b0 [x50; x70; x51; x71] -> ~ In LF body ->
      len (b0 :: body ++ [LF]) <> 6 ->
      ReadProtocol (mkReader (b0 :: body ++ LF :: rest) fl) =
      Ret (None, Some raw_command) (mkReader rest fl)).
Proof.
  split.
  - intros rest fl. repeat split.
  - intros b0 body rest fl Hb Hbody Hlen. simpl in Hb.
    destruct Hb as [<-|[<-|[<-|[<-|[]]]]];
      match goal with
      | |- ReadProtocol (mkReader (?b :: _) _) = _ => read_line b body rest
      end;
      rewrite (proj2 (Z.eqb_neq _ _) Hlen); reflexivity.
Qed.

Lemma inline_commands_at_PINGX :
  ReadProtocol (mkReader (bs "PINGX" ++ CRLF ++ bs "+OK") io_EOF) =
  Ret (None, Some raw_command) (mkReader (bs "+OK") io_EOF).
Proof.
  apply (proj2 inline_commands x50 (bs "INGX" ++ [CR]) (bs "+OK") io_EOF).
  - simpl. left. reflexivity.
  - simpl. intuition discriminate.
  - vm_compute. discriminate.
Defined.

(** C7.  After an array header that declares [n] replies the decoder calls
    itself for one reply after the other.  When [n] bulk replies follow, the
    array holds them in the order read; when fewer bulk replies are followed
    by a reply of another type, the whole decode ends with the error "must
    read BulkResp", neither a reply nor a panic; a header that declares
    [0] gives the array without arguments and reads nothing more. *)
Theorem array_decode p c n rest fl brs r1 :
  ParseLen p = (n, None) -> c <> LF ->
  reads_bulks (mkReader rest fl) brs r1 ->
  (len brs = n ->
   ReadProtocol (mkReader (ArrSep :: p ++ c :: LF :: rest) fl) =
   Ret (Some (RArray (mkArrayResp (mkBaseResp ArrayType []) brs)), None) r1) /\
  (forall v r2,
      len brs < n ->
      ReadProtocol r1 = Ret (Some v, None) r2 -> is_BulkResp v = false ->
      ReadProtocol (mkReader (ArrSep :: p ++ c :: LF :: rest) fl) =
      Ret (None, Some must_read_bulk) r2) /\
  (n = 0 ->
   ReadProtocol (mkReader (ArrSep :: p ++ c :: LF :: rest) fl) =
   Ret (Some (RArray (mkArrayResp (mkBaseResp ArrayType []) [])), None)
       (mkReader rest fl)).
Proof.
  intros Hp Hc Hb. split; [|split].
  - intro Hn. eapply read_Array_bulks; eauto.
  - intros v r2 Hn Hrd Hv. eapply read_Array_mismatch; eauto.
  - intro Hn. eapply read_Array_bulks; eauto. constructor.
Qed.

Lemma array_decode_at_nested_array :
  ReadProtocol
    (mkReader (bs "*2" ++ CRLF ++ bs "$3" ++ CRLF ++ bs "foo" ++ CRLF
                 ++ bs "*0" ++ CRLF) io_EOF) =
  Ret (None, Some must_read_bulk) (mkReader [] io_EOF).
Proof.
  refine (proj1 (proj2
            (array_decode (bs "2") CR 2
               (bs "$3" ++ CRLF ++ bs "foo" ++ CRLF ++ bs "*0" ++ CRLF) io_EOF
               [mkBulkResp (mkBaseResp BulkType [bs "foo"]) false]
               (mkReader (bs "*0" ++ CRLF) io_EOF) _ _ _))
            (RArray (mkArrayResp (mkBaseResp ArrayType []) []))
            (mkReader [] io_EOF) _ _ _).
  - reflexivity.
  - discriminate.
  - eapply reads_cons; [vm_compute; reflexivity | apply reads_nil].
  - vm_compute. reflexivity.
  - vm_compute. reflexivity.
  - reflexivity.
Defined.

(** C8.  [Length] of an array reply is the number of its arguments minus
    one; [Length] of a reply of any other type is zero. *)
Theorem Length_of_replies :
  (forall ar, Length (RArray ar) = len (ArrayResp_Args ar) - 1) /\
  (forall sr, Length (RSimple sr) = 0) /\
  (forall er, Length (RError er) = 0) /\
  (forall ir, Length (RInt ir) = 0) /\
  (forall br, Length (RBulk br) = 0).
Proof. repeat split. Qed.

Lemma BulkResp_Encode_panic br e :
  BulkResp_Encode br = Panics (panic_value e) ->
  exists rt, e = type_error "BulkResp" rt BulkType.
Proof.
  unfold BulkResp_Encode.
  destruct (negb (String.eqb (Rtype (BulkResp_base br)) BulkType)).
  - intro H. inversion H. eauto.
  - destruct (Empty br); [discriminate|].
    destruct (index (Args (BulkResp_base br)) 0) eqn:E; [discriminate|].
    unfold index in E. destruct (nth_error _ _); [discriminate|].
    inversion E; subst. discriminate.
Qed.

Lemma Encode_args_panic args : forall b e,
  Encode_args args b = Panics (panic_value e) ->
  exists rt, e = type_error "BulkResp" rt BulkType.
Proof.
  induction args as [|arg args IH]; intros b e; simpl; [discriminate|].
  destruct (BulkResp_Encode arg) eqn:E; simpl.
  - apply IH.
  - intro H. inversion H; subst. eapply BulkResp_Encode_panic; eauto.
Qed.

Lemma line_Encode_no_panic_value (args : list bytes) (sep : byte) e :
  exec_bind (index args 0) (fun a0 => Done ([sep] ++ a0 ++ CRLF)) <>
  Panics (panic_value e).
Proof.
  unfold index. destruct (nth_error args 0); simpl; discriminate.
Qed.

(** C9.  [Encode] on a reply whose kind tag is not the one its method
    expects panics with the "Encode Type error" message of that method; on a
    reply whose tag is the expected one, that panic is never the outcome. *)
Theorem Encode_type_assertion v :
  (TypeOf v <> expected_type v ->
   Encode v =
   Panics (panic_value (type_error (receiver v) (TypeOf v) (expected_type v))))
  /\
  (TypeOf v = expected_type v ->
   forall rt,
     Encode v <>
     Panics (panic_value (type_error (receiver v) rt (expected_type v)))).
Proof.
  split.
  - intro H. apply String.eqb_neq in H.
    destruct v as [[b]|[b]|[b]|[b e]|[b args]]; simpl in *;
      unfold SimpleResp_Encode, ErrorResp_Encode, IntResp_Encode,
        BulkResp_Encode, ArrayResp_Encode, BaseResp_Type in *; simpl in *;
      rewrite H; reflexivity.
  - intros H rt.
    destruct v as [[b]|[b]|[b]|[b e]|[b args]]; simpl in *;
      unfold SimpleResp_Encode, ErrorResp_Encode, IntResp_Encode,
        BulkResp_Encode, ArrayResp_Encode, BaseResp_Type in *; simpl in *;
      rewrite H; simpl;
      try apply line_Encode_no_panic_value.
    + destruct e; [discriminate|].
      unfold index. destruct (nth_error (Args b) 0); simpl; discriminate.
    + intro E. apply Encode_args_panic in E. destruct E as [rt' E].
      discriminate E.
Qed.

Lemma Encode_type_assertion_at_mistagged_simple :
  Encode (RSimple (mkSimpleResp (mkBaseResp BulkType [bs "OK"]))) =
  Panics (panic_value "SimpleResp Encode Type error: bulk, expected simple").
Proof.
  apply (proj1 (Encode_type_assertion
                  (RSimple (mkSimpleResp (mkBaseResp BulkType [bs "OK"]))))).
  discriminate.
Defined.

(** C10.  A line of six bytes that starts with [P] or [p] decodes to the
    array of the one bulk reply [PING] whatever its next four bytes are, and
    a line of six bytes that starts with [Q] or [q] to the array of the one
    bulk reply [QUIT]: the first byte and the length of the line are all
    that is looked at. *)
Theorem inline_first_byte_only b0 c1 c2 c3 c4 rest fl :
  ~ In LF [c1; c2; c3; c4] ->
  (b0 = x50 \/ b0 = x70 ->
   ReadProtocol (mkReader (b0 :: [c1; c2; c3; c4] ++ LF :: rest) fl) =
   Ret (Some (inline_reply (bs "PING")), None) (mkReader rest fl)) /\
  (b0 = x51 \/ b0 = x71 ->
   ReadProtocol (mkReader (b0 :: [c1; c2; c3; c4] ++ LF :: rest) fl) =
   Ret (Some (inline_reply (bs "QUIT")), None) (mkReader rest fl)).
Proof.
  intro H. split; intros [-> | ->];
    match goal with
    | |- ReadProtocol (mkReader (?b :: _) _) = _ =>
        read_line b [c1; c2; c3; c4] rest
    end; reflexivity.
Qed.

Lemma inline_first_byte_only_at_PONG :
  ReadProtocol (mkReader (bs "PONG" ++ CRLF) io_EOF) =
  Ret (Some (inline_reply (bs "PING")), None) (mkReader [] io_EOF).
Proof.
  apply (proj1 (inline_first_byte_only x50 x4f x4e x47 CR [] io_EOF
                  ltac:(simpl; intuition discriminate))).
  left. reflexivity.
Defined.

(** * Further properties of the decoder *)

Section Prefix.

Lemma read_args_reads_prefix rd n :
  reads_prefix rd ->
  forall k i args r v e r',
    read_args rd n k i args r = Ret (v, e) r' ->
    failure r' = failure r /\ exists used, pending r = used ++ pending r'.
Proof.
  intros Hrd k; induction k as [|k IH]; intros i args r v e r' H.
  - simpl in H. destruct (i <? n); [discriminate|].
    inversion H; subst. split; [reflexivity | exists []; reflexivity].
  - simpl in H. destruct (i <? n);
      [|inversion H; subst; split; [reflexivity | exists []; reflexivity]].
    unfold bind in H.
    destruct (rd r) as [[rsp err] r1| |] eqn:E; try discriminate.
    destruct (Hrd _ _ _ _ E) as (Hf & used & Hu & _).
    destruct err; [inversion H; subst; eauto|].
    destruct rsp as [[| | |br|]|]; try (inversion H; subst; eauto; fail).
    apply IH in H. destruct H as (Hf' & used' & Hu').
    split; [congruence|]. exists (used ++ used').
    rewrite Hu, Hu', app_assoc. reflexivity.
Qed.

Lemma nonempty_app (l l' : bytes) : l <> [] -> l ++ l' <> [].
Proof. destruct l; [congruence | discriminate]. Qed.

Lemma ReadProtocol_body_reads_prefix self k :
  reads_prefix self -> reads_prefix (ReadProtocol_body self k).
Proof.
  intros Hs r v e r' H.
  unfold ReadProtocol_body, bind, lift, ret, ReadFull, ReadBytes in H.
  destruct (split_delim LF (pending r)) as [[line rest]|] eqn:E.
  - apply split_delim_shorter in E. destruct E as [E Hl]. rewrite E.
    split_cases_in H; try discriminate;
      try (inversion H; subst; simpl; split; [reflexivity|];
           first [ exists line; split; [reflexivity | intros _; exact Hl]
                 | eexists (line ++ firstn _ rest); split;
                   [ rewrite <- app_assoc, firstn_skipn; reflexivity
                   | intros _; apply nonempty_app, Hl ]
                 | exists (line ++ rest); split;
                   [ rewrite app_nil_r; reflexivity
                   | intros _; apply nonempty_app, Hl ] ]).
    apply (read_args_reads_prefix _ _ Hs) in H. simpl in H.
    destruct H as (Hf & used & Hu). split; [exact Hf|].
    exists (line ++ used). split.
    + rewrite Hu, app_assoc. reflexivity.
    + intros _. apply nonempty_app, Hl.
  - inversion H; subst; simpl. split; [reflexivity|].
    exists (pending r). split; [rewrite app_nil_r; reflexivity | discriminate].
Qed.

Lemma ReadProtocol_fuel_reads_prefix fuel : reads_prefix (ReadProtocol_fuel fuel).
Proof.
  induction fuel as [|f IH].
  - intros r v e r' H. discriminate.
  - apply ReadProtocol_body_reads_prefix, IH.
Qed.

End Prefix.

(** X1.  Whatever [ReadProtocol] returns, the bytes it leaves on the reader
    are the pending bytes without a prefix, so it never reorders, invents or
    gives back a byte; the prefix holds at least one byte when no error is
    returned; and the error of the transport is left as it was. *)
Theorem ReadProtocol_reads_a_prefix r v e r' :
  ReadProtocol r = Ret (v, e) r' ->
  failure r' = failure r /\
  exists used, pending r = used ++ pending r' /\ (e = None -> used <> []).
Proof. exact (ReadProtocol_fuel_reads_prefix _ r v e r'). Qed.

Lemma ReadProtocol_reads_a_prefix_sample :
  failure (mkReader (bs ":7" ++ CRLF) io_EOF) = io_EOF /\
  exists used,
    bs "+OK" ++ CRLF ++ bs ":7" ++ CRLF = used ++ bs ":7" ++ CRLF /\
    (@None error = None -> used <> []).
Proof.
  apply (ReadProtocol_reads_a_prefix
           (mkReader (bs "+OK" ++ CRLF ++ bs ":7" ++ CRLF) io_EOF)
           (Some (RSimple (mkSimpleResp (mkBaseResp SimpleType [bs "OK"]))))
           None (mkReader (bs ":7" ++ CRLF) io_EOF)).
  reflexivity.
Defined.

Section Shape.

Lemma split_delim_init delim l line rest :
  split_delim delim l = Some (line, rest) ->
  exists init, line = init ++ [delim] /\ ~ In delim init.
Proof.
  revert line rest; induction l as [|b t IH]; simpl; intros line rest H.
  - discriminate.
  - destruct (Byte.eqb b delim) eqn:Eb.
    + apply Byte.byte_dec_bl in Eb. inversion H; subst.
      exists []. split; [reflexivity | intros []].
    + destruct (split_delim delim t) as [[l1 r1]|]; [|discriminate].
      inversion H; subst. destruct (IH l1 rest eq_refl) as (init & -> & Hi).
      exists (b :: init). split; [reflexivity|].
      intros [Hb|Hb]; [|exact (Hi Hb)].
      subst b. rewrite (Byte.byte_dec_lb eq_refl) in Eb. discriminate.
Qed.

Lemma In_firstn_in {A : Type} (n : nat) (l : list A) x :
  In x (firstn n l) -> In x l.
Proof.
  intro H. rewrite <- (firstn_skipn n l). apply in_or_app. left. exact H.
Qed.

Lemma In_skipn_in {A : Type} (n : nat) (l : list A) x :
  In x (skipn n l) -> In x l.
Proof.
  intro H. rewrite <- (firstn_skipn n l). apply in_or_app. right. exact H.
Qed.

(** The payload cut out of a line lies before the last byte of the line. *)
Lemma slice_payload_in (init : bytes) (d : byte) lo a x :
  slice (init ++ [d]) lo (len (init ++ [d]) - 2) = Done a ->
  In x a -> In x init.
Proof.
  unfold slice, len. rewrite length_app. simpl List.length.
  destruct ((0 <=? lo) && (lo <=? Z.of_nat (List.length init + 1) - 2)
            && (Z.of_nat (List.length init + 1) - 2
                <=? Z.of_nat (List.length init + 1))) eqn:E; [|discriminate].
  rewrite !andb_true_iff, !Z.leb_le in E. destruct E as [[H0 H1] _].
  intro H. inversion H; subst; clear H.
  rewrite firstn_skipn_comm. intro Hx. apply In_skipn_in in Hx.
  replace (Z.to_nat lo + Z.to_nat (Z.of_nat (List.length init + 1) - 2 - lo))%nat
    with (List.length init - 1)%nat in Hx by lia.
  rewrite firstn_app in Hx.
  replace (List.length init - 1 - List.length init)%nat with 0%nat in Hx by lia.
  simpl in Hx. rewrite app_nil_r in Hx. eapply In_firstn_in; eauto.
Qed.

Lemma read_args_shape rd n :
  result_shape rd ->
  forall k i args r v e r',
    Forall bulk_invariant args ->
    read_args rd n k i args r = Ret (v, e) r' ->
    match v, e with
    | Some v, None => invariant v
    | Some _, Some _ => False
    | None, Some _ => True
    | None, None => False
    end.
Proof.
  intros Hrd k; induction k as [|k IH]; intros i args r v e r' Ha H.
  - simpl in H. destruct (i <? n); [discriminate|].
    inversion H; subst. split; [reflexivity | exact Ha].
  - simpl in H. destruct (i <? n);
      [|inversion H; subst; split; [reflexivity | exact Ha]].
    unfold bind in H.
    destruct (rd r) as [[rsp err] r1| |] eqn:E; try discriminate.
    specialize (Hrd _ _ _ _ E).
    destruct err; [inversion H; subst; exact I|].
    destruct rsp as [[| | |br|]|]; try (inversion H; subst; exact I).
    eapply IH; [|exact H].
    apply Forall_app. split; [exact Ha | constructor; [exact Hrd | constructor]].
Qed.

Lemma ReadProtocol_body_shape self k :
  result_shape self -> result_shape (ReadProtocol_body self k).
Proof.
  intros Hs r v e r' H.
  unfold ReadProtocol_body, bind, lift, ret, ReadFull, ReadBytes in H.
  destruct (split_delim LF (pending r)) as [[line rest]|] eqn:E.
  - apply split_delim_init in E. destruct E as (init & -> & Hi).
    split_cases_in H; try discriminate;
      try match goal with
          | Hx : (false || negb (?a =? ?a))%bool = true |- _ =>
              simpl in Hx; rewrite Z.eqb_refl in Hx; discriminate Hx
          end;
      try (inversion H; subst; simpl; first
             [ exact I
             | reflexivity
             | split; [reflexivity|];
               eexists; split; [reflexivity|];
               intro Hx;
               match goal with
               | Hsl : slice _ _ _ = Done _ |- _ =>
                   exact (Hi (slice_payload_in _ _ _ _ _ Hsl Hx))
               end
             | split; [reflexivity | left; split; reflexivity]
             | split; [reflexivity | right; split; [reflexivity | eexists; reflexivity]]
             | split; [reflexivity|];
               constructor; [|constructor];
               split; [reflexivity | right; split; [reflexivity | eexists; reflexivity]] ]).
    pose proof (read_args_shape _ _ Hs _ _ _ _ _ _ _ (Forall_nil _) H) as Hr.
    destruct v, e; try exact Hr; contradiction.
  - inversion H; subst; simpl. exact I.
Qed.

Lemma ReadProtocol_fuel_shape fuel : result_shape (ReadProtocol_fuel fuel).
Proof.
  induction fuel as [|f IH].
  - intros r v e r' H. discriminate.
  - apply ReadProtocol_body_shape, IH.
Qed.

End Shape.

(** X2.  A reply returned by [ReadProtocol] always comes with a nil error,
    and it keeps the invariants of its variant: the expected kind tag,
    exactly one argument (none for a null bulk), no line feed in a line
    payload, bulk replies only inside an array. *)
Theorem decoded_reply_keeps_invariants r v e r' :
  ReadProtocol r = Ret (Some v, e) r' -> e = None /\ invariant v.
Proof.
  intro H. pose proof (ReadProtocol_fuel_shape _ _ _ _ _ H) as Hs.
  simpl in Hs. destruct e; [contradiction|]. split; [reflexivity | exact Hs].
Qed.

Lemma decoded_reply_keeps_invariants_sample :
  @None error = None /\
  invariant (RBulk (mkBulkResp (mkBaseResp BulkType [bs "foo"]) false)).
Proof.
  apply (decoded_reply_keeps_invariants
           (mkReader (bs "$3" ++ CRLF ++ bs "foo" ++ CRLF) io_EOF)
           (RBulk (mkBulkResp (mkBaseResp BulkType [bs "foo"]) false))
           None (mkReader [] io_EOF)).
  reflexivity.
Defined.

(** X3.  [ReadProtocol] returns a nil reply together with a nil error only
    when it has drained the reader: nothing is pending after such a
    return. *)
Theorem nil_reply_nil_error_drains_reader r r' :
  ReadProtocol r = Ret (None, None) r' -> pending r' = [].
Proof.
  intro H. exact (ReadProtocol_fuel_shape _ _ _ _ _ H).
Qed.

Lemma nil_reply_nil_error_drains_reader_sample :
  pending (mkReader [] io_EOF) = [].
Proof.
  apply (nil_reply_nil_error_drains_reader
           (mkReader (bs "$10" ++ CRLF ++ bs "abc") io_EOF)
           (mkReader [] io_EOF)).
  reflexivity.
Defined.

Section OtherBranches.

Lemma split_delim_none delim l :
  ~ In delim l -> split_delim delim l = None.
Proof.
  induction l as [|b t IH]; intro H; simpl; [reflexivity|].
  rewrite eqb_neq by (intro; subst; apply H; left; reflexivity).
  rewrite IH by (intro; apply H; right; assumption). reflexivity.
Qed.

End OtherBranches.

(** X4.  A line whose first byte is none of the five sigils and none of
    [Q], [q], [p], [P] is refused with the error "ReadResp error,
    unexpected: " followed by the line itself and its first byte; the line
    is taken off the reader and nothing else.  So is an empty line. *)
Theorem unknown_first_byte_is_refused :
  (forall b0 body rest fl,
      ~ In b0 [SimpSep; ErrSep; IntSep; BulkSep; ArrSep; x51; x71; x70; x50] ->
      b0 <> LF -> ~ In LF body ->
      ReadProtocol (mkReader (b0 :: body ++ LF :: rest) fl) =
      Ret (None, Some (unexpected (b0 :: body ++ [LF]) b0))
          (mkReader rest fl)) /\
  (forall rest fl,
      ReadProtocol (mkReader (LF :: rest) fl) =
      Ret (None, Some (unexpected [LF] LF)) (mkReader rest fl)).
Proof.
  split.
  - intros b0 body rest fl Hb Hlf Hbody.
    rewrite ReadProtocol_unfold.
    unfold ReadProtocol_body, bind, lift, ret.
    change (b0 :: body ++ LF :: rest) with ((b0 :: body) ++ LF :: rest).
    rewrite ReadBytes_line by (intros [?|?]; [congruence | contradiction]).
    cbv beta iota. cbn [index nth_error app]. cbv beta iota.
    rewrite (eqb_neq b0 SimpSep), (eqb_neq b0 ErrSep), (eqb_neq b0 IntSep),
      (eqb_neq b0 BulkSep), (eqb_neq b0 ArrSep), (eqb_neq b0 x51),
      (eqb_neq b0 x71), (eqb_neq b0 x70), (eqb_neq b0 x50);
      try (intro; subst b0; apply Hb; simpl; tauto).
    reflexivity.
  - intros rest fl. reflexivity.
Qed.

Lemma unknown_first_byte_is_refused_at_hello :
  ReadProtocol (mkReader (bs "hello" ++ CRLF ++ bs "+OK") io_EOF) =
  Ret (None, Some (unexpected (bs "hello" ++ CRLF) x68))
      (mkReader (bs "+OK") io_EOF).
Proof.
  apply (proj1 unknown_first_byte_is_refused x68 (bs "ello" ++ [CR])
           (bs "+OK") io_EOF).
  - simpl. intuition discriminate.
  - discriminate.
  - simpl. intuition discriminate.
Defined.

(** X5.  When no line feed is pending, in particular when nothing is,
    [ReadProtocol] returns a nil reply with the transport's own error,
    [io.EOF] for a closed connection, and the bytes that were pending are
    gone. *)
Theorem missing_line_feed_returns_transport_error r :
  ~ In LF (pending r) ->
  ReadProtocol r = Ret (None, Some (failure r)) (mkReader [] (failure r)).
Proof.
  intro H. rewrite ReadProtocol_unfold.
  unfold ReadProtocol_body, bind, ReadBytes.
  rewrite split_delim_none by exact H. reflexivity.
Qed.

Lemma missing_line_feed_returns_transport_error_sample :
  ReadProtocol (mkReader (bs "$3" ++ [CR]) (transport_error "reset")) =
  Ret (None, Some (transport_error "reset"))
      (mkReader [] (transport_error "reset")).
Proof.
  apply (missing_line_feed_returns_transport_error
           (mkReader (bs "$3" ++ [CR]) (transport_error "reset"))).
  simpl. intuition discriminate.
Defined.

(** X6.  When [util.ParseLen] refuses the length of a bulk header or the
    count of an array header, [ReadProtocol] returns that error with a nil
    reply, and only the header line has been taken off the reader. *)
Theorem bad_length_returns_ParseLen_error sep p c l e rest fl :
  In sep [BulkSep; ArrSep] ->
  ParseLen p = (l, Some e) -> ~ In LF p -> c <> LF ->
  ReadProtocol (mkReader (sep :: p ++ c :: LF :: rest) fl) =
  Ret (None, Some e) (mkReader rest fl).
Proof.
  intros Hsep Hp Hlf Hc. simpl in Hsep.
  destruct Hsep as [<-|[<-|[]]]; read_header; rewrite Hp; reflexivity.
Qed.

Lemma bad_length_returns_ParseLen_error_sample :
  ReadProtocol (mkReader (bs "*x" ++ CRLF ++ bs "+OK") io_EOF) =
  Ret (None, Some util_ParseLen_error) (mkReader (bs "+OK") io_EOF).
Proof.
  apply (bad_length_returns_ParseLen_error ArrSep (bs "x") CR 0
           util_ParseLen_error (bs "+OK") io_EOF).
  - simpl. right. left. reflexivity.
  - reflexivity.
  - simpl. intuition discriminate.
  - discriminate.
Defined.

(** X7.  The decoder never looks at the byte before the line feed of a
    header line, nor at the two bytes after a bulk payload: whatever they
    are, they are dropped.  Encoding the reply that was read writes the
    frame in its canonical form, with [\r\n] in their place and the length
    as [util.Itob] writes it. *)
Theorem terminators_are_dropped_unread :
  (forall sep text c rest fl,
      In sep [SimpSep; ErrSep; IntSep] -> ~ In LF text -> c <> LF ->
      exists v,
        ReadProtocol (mkReader (sep :: text ++ c :: LF :: rest) fl) =
        Ret (Some v, None) (mkReader rest fl) /\
        Encode v = Done (sep :: text ++ CRLF)) /\
  (forall p c block d1 d2 rest fl,
      ParseLen p = (len block, None) -> c <> LF ->
      exists v,
        ReadProtocol
          (mkReader (BulkSep :: p ++ c :: LF :: block ++ d1 :: d2 :: rest) fl)
        = Ret (Some v, None) (mkReader rest fl) /\
        Encode v =
        Done (BulkSep :: Itob (N.of_nat (List.length block)) ++ CRLF
                ++ block ++ CRLF)).
Proof.
  split.
  - intros sep text c rest fl Hsep Ht Hc. simpl in Hsep.
    destruct Hsep as [<-|[<-|[<-|[]]]]; eexists; split;
      first [ apply read_Simple; assumption
            | apply read_Error; assumption
            | apply read_Int; assumption
            | reflexivity ].
  - intros p c block d1 d2 rest fl Hp Hc. eexists. split.
    + apply read_Bulk; assumption.
    + reflexivity.
Qed.

Lemma terminators_are_dropped_unread_sample :
  exists v,
    ReadProtocol (mkReader (bs "$03" ++ [x21; LF] ++ bs "fooXY+OK") io_EOF) =
    Ret (Some v, None) (mkReader (bs "+OK") io_EOF) /\
    Encode v = Done (bs "$3" ++ CRLF ++ bs "foo" ++ CRLF).
Proof.
  apply (proj2 terminators_are_dropped_unread (bs "03") x21 (bs "foo")
           x58 x59 (bs "+OK") io_EOF).
  - reflexivity.
  - discriminate.
Defined.

Section ChildFailures.

Lemma read_args_child_error n k i args r v e r' :
  i < n -> (List.length (pending r) < k)%nat ->
  ReadProtocol r = Ret (v, Some e) r' ->
  read_args ReadProtocol n k i args r = Ret (None, Some e) r'.
Proof.
  intros Hi Hk Hrd. destruct k as [|k]; [lia|].
  simpl read_args.
  replace (i <? n) with true by (symmetry; apply Z.ltb_lt; lia).
  unfold bind. rewrite Hrd. reflexivity.
Qed.

Lemma read_args_child_nil n k i args r r' :
  i < n -> (List.length (pending r) < k)%nat ->
  ReadProtocol r = Ret (None, None) r' ->
  read_args ReadProtocol n k i args r = Ret (None, Some must_read_bulk) r'.
Proof.
  intros Hi Hk Hrd. destruct k as [|k]; [lia|].
  simpl read_args.
  replace (i <? n) with true by (symmetry; apply Z.ltb_lt; lia).
  unfold bind. rewrite Hrd. reflexivity.
Qed.

Lemma read_args_child_panic n k i args r p :
  i < n -> (List.length (pending r) < k)%nat ->
  ReadProtocol r = Crash p ->
  read_args ReadProtocol n k i args r = Crash p.
Proof.
  intros Hi Hk Hrd. destruct k as [|k]; [lia|].
  simpl read_args.
  replace (i <? n) with true by (symmetry; apply Z.ltb_lt; lia).
  unfold bind. rewrite Hrd. reflexivity.
Qed.

End ChildFailures.

(** X8.  Inside an array, after fewer bulk replies than the header declares:
    an error returned for the next reply is returned for the array as it
    is; a panic on the next reply is a panic of the array; and a next reply
    that is cut short (nil reply, nil error) makes the array fail with "must
    read BulkResp", so the short read shows as a framing error. *)
Theorem array_child_failures p c n rest fl brs r1 :
  ParseLen p = (n, None) -> c <> LF ->
  reads_bulks (mkReader rest fl) brs r1 -> len brs < n ->
  (forall v e r2,
      ReadProtocol r1 = Ret (v, Some e) r2 ->
      ReadProtocol (mkReader (ArrSep :: p ++ c :: LF :: rest) fl) =
      Ret (None, Some e) r2) /\
  (forall pn,
      ReadProtocol r1 = Crash pn ->
      ReadProtocol (mkReader (ArrSep :: p ++ c :: LF :: rest) fl) = Crash pn) /\
  (forall r2,
      ReadProtocol r1 = Ret (None, None) r2 ->
      ReadProtocol (mkReader (ArrSep :: p ++ c :: LF :: rest) fl) =
      Ret (None, Some must_read_bulk) r2).
Proof.
  intros Hp Hc Hb Hn. rewrite (read_Array _ _ _ _ _ Hp Hc).
  destruct (read_args_bulks n _ _ _ Hb
              (List.length (ArrSep :: p ++ c :: LF :: rest)) 0 [])
    as (k' & Hk' & E); [apply header_length | lia |].
  rewrite E. split; [|split].
  - intros v e r2 H. eapply read_args_child_error; eauto; lia.
  - intros pn H. eapply read_args_child_panic; eauto; lia.
  - intros r2 H. eapply read_args_child_nil; eauto; lia.
Qed.

Lemma array_child_failures_at_short_bulk :
  ReadProtocol
    (mkReader (bs "*2" ++ CRLF ++ bs "$3" ++ CRLF ++ bs "foo" ++ CRLF
                 ++ bs "$10" ++ CRLF ++ bs "abc") io_EOF) =
  Ret (None, Some must_read_bulk) (mkReader [] io_EOF).
Proof.
  refine (proj2 (proj2
            (array_child_failures (bs "2") CR 2
               (bs "$3" ++ CRLF ++ bs "foo" ++ CRLF
                  ++ bs "$10" ++ CRLF ++ bs "abc") io_EOF
               [mkBulkResp (mkBaseResp BulkType [bs "foo"]) false]
               (mkReader (bs "$10" ++ CRLF ++ bs "abc") io_EOF) _ _ _ _))
            (mkReader [] io_EOF) _).
  - reflexivity.
  - discriminate.
  - eapply reads_cons; [vm_compute; reflexivity | apply reads_nil].
  - vm_compute. reflexivity.
  - reflexivity.
Defined.

(** X9.  An array header whose count is zero or negative, [*-1] included,
    gives the array without arguments and reads nothing after the header
    line; encoded again, that array is [*0\r\n]. *)
Theorem count_not_positive_reads_empty_array p c n rest fl :
  ParseLen p = (n, None) -> c <> LF -> n <= 0 ->
  ReadProtocol (mkReader (ArrSep :: p ++ c :: LF :: rest) fl) =
  Ret (Some (RArray (mkArrayResp (mkBaseResp ArrayType []) [])), None)
      (mkReader rest fl) /\
  Encode (RArray (mkArrayResp (mkBaseResp ArrayType []) [])) =
  Done (bs "*0" ++ CRLF).
Proof.
  intros Hp Hc Hn. split; [|reflexivity].
  rewrite (read_Array _ _ _ _ _ Hp Hc). apply read_args_done. exact Hn.
Qed.

Lemma count_not_positive_reads_empty_array_at_minus_one :
  ReadProtocol (mkReader (bs "*-1" ++ CRLF ++ bs "+OK") io_EOF) =
  Ret (Some (RArray (mkArrayResp (mkBaseResp ArrayType []) [])), None)
      (mkReader (bs "+OK") io_EOF) /\
  Encode (RArray (mkArrayResp (mkBaseResp ArrayType []) [])) =
  Done (bs "*0" ++ CRLF).
Proof.
  apply (count_not_positive_reads_empty_array (bs "-1") CR (-1) (bs "+OK")
           io_EOF).
  - reflexivity.
  - discriminate.
  - lia.
Defined.

Section ChildCount.

Lemma read_args_count rd n k : forall i args r v r',
  read_args rd n k i args r = Ret (Some v, None) r' ->
  exists brs,
    v = RArray (mkArrayResp (mkBaseResp ArrayType []) brs) /\
    len brs = len args + Z.max 0 (n - i).
Proof.
  induction k as [|k IH]; intros i args r v r' H; simpl in H.
  - destruct (i <? n) eqn:E; [discriminate|]. apply Z.ltb_ge in E.
    inversion H; subst. exists args. split; [reflexivity | lia].
  - destruct (i <? n) eqn:E.
    + apply Z.ltb_lt in E. unfold bind in H.
      destruct (rd r) as [[rsp err] r1| |]; try discriminate.
      destruct err; [discriminate|].
      destruct rsp as [[| | |br|]|]; try discriminate.
      apply IH in H. destruct H as (brs & -> & Hl).
      exists brs. split; [reflexivity|].
      rewrite Hl. unfold len. rewrite length_app. simpl. lia.
    + apply Z.ltb_ge in E. inversion H; subst.
      exists args. split; [reflexivity | lia].
Qed.

End ChildCount.

(** X10.  Whenever [ReadProtocol] returns a reply for an array header, the
    reply is an array that holds exactly as many bulk replies as the header
    declares (none for a negative count), so its [Length] is the declared
    count minus one. *)
Theorem declared_count_is_child_count p c n rest fl v e r' :
  ParseLen p = (n, None) -> c <> LF ->
  ReadProtocol (mkReader (ArrSep :: p ++ c :: LF :: rest) fl) =
  Ret (Some v, e) r' ->
  exists ar,
    v = RArray ar /\
    len (ArrayResp_Args ar) = Z.max 0 n /\
    Length v = Z.max 0 n - 1.
Proof.
  intros Hp Hc H.
  pose proof (ReadProtocol_fuel_shape _ _ _ _ _ H) as Hs.
  destruct e; [contradiction|].
  rewrite (read_Array _ _ _ _ _ Hp Hc) in H.
  apply read_args_count in H. destruct H as (brs & -> & Hl).
  eexists. split; [reflexivity|].
  simpl. unfold ArrayResp_Length. simpl.
  replace (len brs) with (Z.max 0 n) by (rewrite Hl; unfold len; simpl; lia).
  split; reflexivity.
Qed.

Lemma declared_count_is_child_count_at_foo_bar :
  exists ar,
    RArray
      (mkArrayResp (mkBaseResp ArrayType [])
         [mkBulkResp (mkBaseResp BulkType [bs "foo"]) false;
          mkBulkResp (mkBaseResp BulkType [bs "bar"]) false]) = RArray ar /\
    len (ArrayResp_Args ar) = Z.max 0 2 /\
    Length
      (RArray
         (mkArrayResp (mkBaseResp ArrayType [])
            [mkBulkResp (mkBaseResp BulkType [bs "foo"]) false;
             mkBulkResp (mkBaseResp BulkType [bs "bar"]) false])) =
    Z.max 0 2 - 1.
Proof.
  apply (declared_count_is_child_count (bs "2") CR 2
           (bs "$3" ++ CRLF ++ bs "foo" ++ CRLF ++ bs "$3" ++ CRLF
              ++ bs "bar" ++ CRLF) io_EOF _ None (mkReader [] io_EOF)).
  - reflexivity.
  - discriminate.
  - reflexivity.
Defined.

(** X11.  An inline command and the framed command it stands for give the
    same reply: a line of six bytes that starts with [P] or [p] is read as
    the frame [*1\r\n$4\r\nPING\r\n] is read (with [QUIT] for [Q] or [q]),
    and encoding the reply writes that frame. *)
Theorem inline_command_reads_as_framed b0 c1 c2 c3 c4 name rest fl rest' fl' :
  ~ In LF [c1; c2; c3; c4] ->
  (In b0 [x50; x70] /\ name = bs "PING") \/
  (In b0 [x51; x71] /\ name = bs "QUIT") ->
  exists v,
    ReadProtocol (mkReader (b0 :: [c1; c2; c3; c4] ++ LF :: rest) fl) =
    Ret (Some v, None) (mkReader rest fl) /\
    ReadProtocol
      (mkReader (bs "*1" ++ CRLF ++ bs "$4" ++ CRLF ++ name ++ CRLF ++ rest')
         fl') =
    Ret (Some v, None) (mkReader rest' fl') /\
    Encode v = Done (bs "*1" ++ CRLF ++ bs "$4" ++ CRLF ++ name ++ CRLF).
Proof.
  intros Hlf H. exists (inline_reply name).
  assert (Hframed :
            ReadProtocol
              (mkReader
                 (bs "*1" ++ CRLF ++ bs "$4" ++ CRLF ++ name ++ CRLF ++ rest')
                 fl') =
            Ret (Some (inline_reply name), None) (mkReader rest' fl') /\
            Encode (inline_reply name) =
            Done (bs "*1" ++ CRLF ++ bs "$4" ++ CRLF ++ name ++ CRLF)).
  { destruct H as [[_ ->]|[_ ->]]; split; try reflexivity.
    - destruct (array_codec
                  [mkBulkResp (mkBaseResp BulkType [bs "PING"]) false]
                  [BulkSep :: Itob 4 ++ CRLF ++ bs "PING" ++ CRLF]) as [_ Hr].
      + constructor; [apply (bulk_codec_content (bs "PING")) | constructor].
      + apply (Hr rest' fl').
    - destruct (array_codec
                  [mkBulkResp (mkBaseResp BulkType [bs "QUIT"]) false]
                  [BulkSep :: Itob 4 ++ CRLF ++ bs "QUIT" ++ CRLF]) as [_ Hr].
      + constructor; [apply (bulk_codec_content (bs "QUIT")) | constructor].
      + apply (Hr rest' fl'). }
  destruct Hframed as [Hr He]. split; [|split; assumption].
  simpl in H.
  destruct H as [[[<-|[<-|[]]] ->]|[[<-|[<-|[]]] ->]];
    match goal with
    | |- ReadProtocol (mkReader (?b :: _) _) = _ =>
        read_line b [c1; c2; c3; c4] rest
    end; reflexivity.
Qed.

Lemma inline_command_reads_as_framed_at_ping :
  exists v,
    ReadProtocol (mkReader (bs "ping" ++ CRLF ++ bs "+OK") io_EOF) =
    Ret (Some v, None) (mkReader (bs "+OK") io_EOF) /\
    ReadProtocol
      (mkReader (bs "*1" ++ CRLF ++ bs "$4" ++ CRLF ++ bs "PING" ++ CRLF ++ [])
         io_EOF) =
    Ret (Some v, None) (mkReader [] io_EOF) /\
    Encode v = Done (bs "*1" ++ CRLF ++ bs "$4" ++ CRLF ++ bs "PING" ++ CRLF).
Proof.
  apply (inline_command_reads_as_framed x70 x69 x6e x67 CR (bs "PING")
           (bs "+OK") io_EOF [] io_EOF).
  - simpl. intuition discriminate.
  - left. split; [simpl; right; left; reflexivity | reflexivity].
Defined.

(** * Further properties of the encoders *)

Section Encoders.

Lemma BulkResp_Encode_Done br f :
  BulkResp_Encode br = Done f ->
  Rtype (BulkResp_base br) = BulkType /\
  ((Empty br = true /\ f = BulkSep :: bs "-1" ++ CRLF) \/
   (Empty br = false /\
    exists a0 more,
      Args (BulkResp_base br) = a0 :: more /\
      f = BulkSep :: Itob (N.of_nat (List.length a0)) ++ CRLF ++ a0 ++ CRLF)).
Proof.
  unfold BulkResp_Encode.
  destruct (String.eqb (Rtype (BulkResp_base br)) BulkType) eqn:E;
    [|discriminate].
  apply String.eqb_eq in E. simpl. intro H. split; [exact E|].
  destruct (Empty br).
  - left. inversion H. split; reflexivity.
  - right. split; [reflexivity|].
    destruct (Args (BulkResp_base br)) as [|a0 more]; [discriminate|].
    inversion H. eauto.
Qed.

Lemma BulkResp_Encode_codec br f :
  BulkResp_Encode br = Done f -> bulk_codec (normalise_bulk br) f.
Proof.
  intro H. apply BulkResp_Encode_Done in H.
  destruct H as [_ [[He ->]|[He (a0 & more & Ha & ->)]]];
    unfold normalise_bulk; rewrite He.
  - apply bulk_codec_null.
  - rewrite Ha. apply bulk_codec_content.
Qed.

Lemma Encode_args_Done brs : forall b f,
  Encode_args brs b = Done f ->
  exists fs,
    f = b ++ List.concat fs /\
    Forall2 (fun br f => BulkResp_Encode br = Done f) brs fs.
Proof.
  induction brs as [|br brs IH]; intros b f H; simpl in H.
  - inversion H. exists []. split; [rewrite app_nil_r; reflexivity | constructor].
  - destruct (BulkResp_Encode br) as [e|] eqn:E; [|discriminate].
    simpl in H. apply IH in H. destruct H as (fs & -> & Hfs).
    exists (e :: fs). split.
    + simpl. rewrite <- app_assoc. reflexivity.
    + constructor; assumption.
Qed.

Lemma Encode_args_concat brs fs :
  Forall2 (fun br f => BulkResp_Encode br = Done f) brs fs ->
  forall b, Encode_args brs b = Done (b ++ List.concat fs).
Proof.
  induction 1 as [|br f brs fs He _ IH]; intro b; simpl.
  - rewrite app_nil_r. reflexivity.
  - rewrite He. simpl. rewrite IH, <- app_assoc. reflexivity.
Qed.

Lemma Encode_args_first_panic ok fs bad pn more :
  Forall2 (fun br f => BulkResp_Encode br = Done f) ok fs ->
  BulkResp_Encode bad = Panics pn ->
  forall b, Encode_args (ok ++ bad :: more) b = Panics pn.
Proof.
  induction 1 as [|br f brs fs He _ IH]; intros Hbad b; simpl.
  - rewrite Hbad. reflexivity.
  - rewrite He. simpl. apply IH. exact Hbad.
Qed.

End Encoders.

Lemma Encode_ReadProtocol_normal_form v f :
  Encode v = Done f -> line_safe v ->
  forall rest fl,
    ReadProtocol (mkReader (f ++ rest) fl) =
    Ret (Some (normalise v), None) (mkReader rest fl).
Proof.
  destruct v as [[[rt args]]|[[rt args]]|[[rt args]]|br|[[rt args] brs]];
    simpl.
  - unfold SimpleResp_Encode. simpl.
    destruct (String.eqb rt SimpleType); [|discriminate].
    destruct args as [|a0 more]; [discriminate|]. simpl.
    intros H Hs rest fl. inversion H; subst; clear H.
    replace ((SimpSep :: a0 ++ CRLF) ++ rest)
      with (SimpSep :: a0 ++ CR :: LF :: rest)
      by (simpl; rewrite <- app_assoc; reflexivity).
    apply read_Simple; [apply Hs; reflexivity | discriminate].
  - unfold ErrorResp_Encode. simpl.
    destruct (String.eqb rt ErrorType); [|discriminate].
    destruct args as [|a0 more]; [discriminate|]. simpl.
    intros H Hs rest fl. inversion H; subst; clear H.
    replace ((ErrSep :: a0 ++ CRLF) ++ rest)
      with (ErrSep :: a0 ++ CR :: LF :: rest)
      by (simpl; rewrite <- app_assoc; reflexivity).
    apply read_Error; [apply Hs; reflexivity | discriminate].
  - unfold IntResp_Encode. simpl.
    destruct (String.eqb rt IntType); [|discriminate].
    destruct args as [|a0 more]; [discriminate|]. simpl.
    intros H Hs rest fl. inversion H; subst; clear H.
    replace ((IntSep :: a0 ++ CRLF) ++ rest)
      with (IntSep :: a0 ++ CR :: LF :: rest)
      by (simpl; rewrite <- app_assoc; reflexivity).
    apply read_Int; [apply Hs; reflexivity | discriminate].
  - intros H _. apply BulkResp_Encode_codec in H. destruct H as [_ H]. exact H.
  - unfold ArrayResp_Encode. simpl.
    destruct (String.eqb rt ArrayType); [|discriminate]. simpl.
    intros H _ rest fl. apply Encode_args_Done in H.
    destruct H as (fs & -> & Hfs).
    assert (Hc : Forall2 bulk_codec (map normalise_bulk brs) fs).
    { clear -Hfs. induction Hfs; simpl; constructor; auto.
      apply BulkResp_Encode_codec. assumption. }
    destruct (array_codec _ _ Hc) as [_ Hr].
    rewrite (Forall2_length Hfs). specialize (Hr rest fl).
    cbn [app] in Hr |- *. rewrite <- !app_assoc in Hr |- *. exact Hr.
Qed.

(** X12.  Decoding what [Encode] wrote gives the reply in its normal form,
    not always the reply itself: the arguments after the first are lost, and
    so are the arguments of a null bulk and of the embedded [BaseResp] of an
    array.  This holds for every reply that [Encode] does not panic on and
    whose line payload holds no line feed. *)
Theorem Encode_then_ReadProtocol_normalises v f :
  Encode v = Done f -> line_safe v ->
  forall rest fl,
    ReadProtocol (mkReader (f ++ rest) fl) =
    Ret (Some (normalise v), None) (mkReader rest fl).
Proof. exact (Encode_ReadProtocol_normal_form v f). Qed.

Lemma Encode_then_ReadProtocol_normalises_sample :
  ReadProtocol (mkReader ((bs "+OK" ++ CRLF) ++ bs ":1" ++ CRLF) io_EOF) =
  Ret (Some (RSimple (mkSimpleResp (mkBaseResp SimpleType [bs "OK"]))), None)
      (mkReader (bs ":1" ++ CRLF) io_EOF).
Proof.
  apply (Encode_then_ReadProtocol_normalises
           (RSimple (mkSimpleResp
                       (mkBaseResp SimpleType [bs "OK"; bs "ignored"])))
           (bs "+OK" ++ CRLF)).
  - reflexivity.
  - simpl. intros a H. inversion H; subst. simpl. intuition discriminate.
Defined.

(** X13.  The encoding of an array with the array tag is its header, [*],
    the number of its arguments and [\r\n], followed by the encodings of its
    arguments in order with nothing between them; when an argument makes
    [BulkResp.Encode] panic, the array panics with the panic of the first
    such argument. *)
Theorem ArrayResp_Encode_concatenates b brs :
  Rtype b = ArrayType ->
  (forall fs,
      Forall2 (fun br f => BulkResp_Encode br = Done f) brs fs ->
      ArrayResp_Encode (mkArrayResp b brs) =
      Done (ArrSep :: Itob (N.of_nat (List.length brs)) ++ CRLF
              ++ List.concat fs)) /\
  (forall ok fs bad pn more,
      brs = ok ++ bad :: more ->
      Forall2 (fun br f => BulkResp_Encode br = Done f) ok fs ->
      BulkResp_Encode bad = Panics pn ->
      ArrayResp_Encode (mkArrayResp b brs) = Panics pn).
Proof.
  intro Hb. unfold ArrayResp_Encode. simpl. rewrite Hb. simpl. split.
  - intros fs H. rewrite (Encode_args_concat _ _ H).
    cbn [app]. rewrite <- app_assoc. reflexivity.
  - intros ok fs bad pn more -> H Hbad.
    apply (Encode_args_first_panic _ _ _ _ _ H Hbad).
Qed.

Lemma ArrayResp_Encode_concatenates_sample :
  ArrayResp_Encode
    (mkArrayResp (mkBaseResp ArrayType [])
       [mkBulkResp (mkBaseResp BulkType [bs "foo"]) false;
        mkBulkResp (mkBaseResp SimpleType [bs "bar"]) false;
        mkBulkResp (mkBaseResp BulkType []) false]) =
  Panics (panic_value (type_error "BulkResp" SimpleType BulkType)).
Proof.
  refine (proj2 (ArrayResp_Encode_concatenates (mkBaseResp ArrayType []) _ _)
            [mkBulkResp (mkBaseResp BulkType [bs "foo"]) false]
            [bs "$3" ++ CRLF ++ bs "foo" ++ CRLF]
            (mkBulkResp (mkBaseResp SimpleType [bs "bar"]) false)
            _ [mkBulkResp (mkBaseResp BulkType []) false] _ _ _).
  - reflexivity.
  - reflexivity.
  - constructor; [reflexivity | constructor].
  - reflexivity.
Defined.

(** X14.  [Encode] needs a first argument: on a simple, error, integer or
    non-null bulk reply that has the expected tag and no argument it panics
    with an index out of range; it does not return an empty frame. *)
Theorem Encode_without_argument_panics b :
  Args b = [] ->
  (Rtype b = SimpleType ->
   Encode (RSimple (mkSimpleResp b)) = Panics index_out_of_range) /\
  (Rtype b = ErrorType ->
   Encode (RError (mkErrorResp b)) = Panics index_out_of_range) /\
  (Rtype b = IntType ->
   Encode (RInt (mkIntResp b)) = Panics index_out_of_range) /\
  (Rtype b = BulkType ->
   Encode (RBulk (mkBulkResp b false)) = Panics index_out_of_range).
Proof.
  intro Ha. destruct b as [rt args]. simpl in Ha. subst args.
  repeat split; simpl; intros ->; reflexivity.
Qed.

Lemma Encode_without_argument_panics_sample :
  Encode (RBulk (mkBulkResp (mkBaseResp BulkType []) false)) =
  Panics index_out_of_range.
Proof.
  apply (proj2 (proj2 (proj2
           (Encode_without_argument_panics (mkBaseResp BulkType [])
              eq_refl)))).
  reflexivity.
Defined.

Section Terminated.

Lemma Encode_args_terminated brs fs :
  Forall2 (fun br f => BulkResp_Encode br = Done f) brs fs ->
  List.concat fs = [] \/ exists t, List.concat fs = t ++ CRLF.
Proof.
  induction 1 as [|br f brs fs He _ IH]; simpl; [left; reflexivity|].
  right. destruct IH as [->|[t ->]].
  - rewrite app_nil_r. apply BulkResp_Encode_Done in He.
    destruct He as [_ [[_ ->]|[_ (a0 & more & _ & ->)]]].
    + exists (BulkSep :: bs "-1"). reflexivity.
    + exists (BulkSep :: Itob (N.of_nat (List.length a0)) ++ CRLF ++ a0).
      cbn [app]. rewrite <- !app_assoc. reflexivity.
  - exists (f ++ t). rewrite app_assoc. reflexivity.
Qed.

End Terminated.

(** X15.  Every frame that [Encode] returns starts with the sigil of the
    reply's type and ends with [\r\n], for each of the five types and
    whatever the arguments hold. *)
Theorem Encode_frames_are_terminated v f :
  Encode v = Done f -> exists body, f = sigil v :: body ++ CRLF.
Proof.
  destruct v as [[[rt args]]|[[rt args]]|[[rt args]]|br|[[rt args] brs]];
    simpl.
  - unfold SimpleResp_Encode. simpl.
    destruct (String.eqb rt SimpleType); [|discriminate].
    destruct args as [|a0 more]; [discriminate|]. simpl.
    intro H. inversion H. exists a0. reflexivity.
  - unfold ErrorResp_Encode. simpl.
    destruct (String.eqb rt ErrorType); [|discriminate].
    destruct args as [|a0 more]; [discriminate|]. simpl.
    intro H. inversion H. exists a0. reflexivity.
  - unfold IntResp_Encode. simpl.
    destruct (String.eqb rt IntType); [|discriminate].
    destruct args as [|a0 more]; [discriminate|]. simpl.
    intro H. inversion H. exists a0. reflexivity.
  - intro H. apply BulkResp_Encode_Done in H.
    destruct H as [_ [[_ ->]|[_ (a0 & more & _ & ->)]]].
    + exists (bs "-1"). reflexivity.
    + exists (Itob (N.of_nat (List.length a0)) ++ CRLF ++ a0).
      rewrite <- !app_assoc. reflexivity.
  - unfold ArrayResp_Encode. simpl.
    destruct (String.eqb rt ArrayType); [|discriminate]. simpl.
    intro H. apply Encode_args_Done in H. destruct H as (fs & -> & Hfs).
    destruct (Encode_args_terminated _ _ Hfs) as [->|[t ->]].
    + exists (Itob (N.of_nat (List.length brs))).
      rewrite app_nil_r. reflexivity.
    + exists (Itob (N.of_nat (List.length brs)) ++ CRLF ++ t).
      cbn [app]. rewrite <- !app_assoc. reflexivity.
Qed.

Lemma Encode_frames_are_terminated_sample :
  exists body, foo_bar = ArrSep :: body ++ CRLF.
Proof.
  apply (Encode_frames_are_terminated
           (RArray
              (mkArrayResp (mkBaseResp ArrayType [])
                 [mkBulkResp (mkBaseResp BulkType [bs "foo"]) false;
                  mkBulkResp (mkBaseResp BulkType [bs "bar"]) false]))
           foo_bar).
  reflexivity.
Defined.

Section Words.

Lemma string_of_list_byte_app a b :
  string_of_list_byte (a ++ b) =
  String.append (string_of_list_byte a) (string_of_list_byte b).
Proof.
  unfold string_of_list_byte. rewrite map_app.
  induction (map ascii_of_byte a) as [|x l IH]; simpl; [reflexivity|].
  rewrite IH. reflexivity.
Qed.

Lemma bytes_Join_app l1 l2 sep :
  l1 <> [] -> l2 <> [] ->
  bytes_Join (l1 ++ l2) sep = bytes_Join l1 sep ++ sep ++ bytes_Join l2 sep.
Proof.
  intros H1 H2. induction l1 as [|s t IH]; [congruence|].
  destruct t as [|s' t].
  - destruct l2; [congruence | reflexivity].
  - change (bytes_Join ((s :: s' :: t) ++ l2) sep)
      with (s ++ sep ++ bytes_Join ((s' :: t) ++ l2) sep).
    rewrite IH by discriminate.
    change (bytes_Join (s :: s' :: t) sep)
      with (s ++ sep ++ bytes_Join (s' :: t) sep).
    rewrite <- !app_assoc. reflexivity.
Qed.

End Words.

(** X16.  [String] of an array whose arguments each hold at least one byte
    slice is those byte slices, in order, joined by single spaces: what
    [BaseResp.String] gives for all of them together. *)
Theorem ArrayResp_String_joins_arguments b brs :
  Forall (fun br => Args (BulkResp_base br) <> []) brs ->
  ToString (RArray (mkArrayResp b brs)) =
  BaseResp_String
    (mkBaseResp ArrayType (flat_map (fun br => Args (BulkResp_base br)) brs)).
Proof.
  simpl. unfold ArrayResp_String, BaseResp_String. simpl.
  induction 1 as [|br brs Hbr Hbrs IH]; [reflexivity|].
  destruct brs as [|br' brs].
  - simpl. rewrite app_nil_r. reflexivity.
  - change (flat_map (fun br => Args (BulkResp_base br)) (br :: br' :: brs))
      with (Args (BulkResp_base br)
              ++ flat_map (fun br => Args (BulkResp_base br)) (br' :: brs)).
    rewrite bytes_Join_app.
    + rewrite !string_of_list_byte_app, <- IH. reflexivity.
    + exact Hbr.
    + inversion Hbrs; subst. simpl.
      destruct (Args (BulkResp_base br')); [congruence | discriminate].
Qed.

Lemma ArrayResp_String_joins_arguments_sample :
  ToString
    (RArray
       (mkArrayResp (mkBaseResp ArrayType [])
          [mkBulkResp (mkBaseResp BulkType [bs "SET"]) false;
           mkBulkResp (mkBaseResp BulkType [bs "k"]) false;
           mkBulkResp (mkBaseResp BulkType [bs "v"]) false])) =
  "SET k v"%string.
Proof.
  apply (ArrayResp_String_joins_arguments (mkBaseResp ArrayType [])
           [mkBulkResp (mkBaseResp BulkType [bs "SET"]) false;
            mkBulkResp (mkBaseResp BulkType [bs "k"]) false;
            mkBulkResp (mkBaseResp BulkType [bs "v"]) false]).
  repeat constructor; discriminate.
Defined.

(** * The writer *)

Section Writer.

Variable Writer : Type.
Variable Write : bytes -> Writer -> (Z * option error) * Writer.
Variable Flush : Writer -> option error * Writer.

(** What has reached the transport, and what the writer still holds. *)
Variable delivered : Writer -> bytes.
Variable buffered : Writer -> bytes.

(** The contract of a [bufio.Writer]: a [Write] that returns no error has
    kept every byte, in order, sent or held; a [Flush] that returns no error
    has sent what was held. *)
Hypothesis Write_keeps :
  forall data w n w1,
    Write data w = ((n, None), w1) ->
    delivered w1 ++ buffered w1 = (delivered w ++ buffered w) ++ data.
Hypothesis Flush_sends :
  forall w w1,
    Flush w = (None, w1) ->
    delivered w1 = delivered w ++ buffered w /\ buffered w1 = [].



End Writer.

